(** * build/utils/npm.go: the npm dependency-tree reducer

    A shallow embedding of [build/utils/npm.go] and the properties of its
    dependency map, scope labels, tree walk, list assembler and package
    identity helper.

    Conventions of the embedding:
    - Go strings are [string] (byte strings); slices are lists, and a slice
      that Go distinguishes from [nil] is an [option (list _)];
    - [map[string]*dependencyInfo] is a [gmap string dependencyInfo];
    - the raw JSON slices handed around by [jsonparser] are represented by
      the document tree they denote ([json]), and [bytes_of] gives the bytes
      of a slice back where the source compares or measures them; a string
      member is not read again as a document of its own;
    - an [error] value is a term of the inductive [error], [nil] is [None];
    - the map is changed in place in the source, also by a walk that ends
      with an error, so the walk returns the map next to its error;
    - [utils.Log] is the list of entries written so far (the source replaces
      a [nil] log by one that drops its entries);
    - what the file calls in other packages is a field of [World]. *)

From Stdlib Require Import String Ascii List Bool ZArith Lia.
From stdpp Require Import gmap strings list fin_maps.

Local Open Scope string_scope.
Local Open Scope list_scope.

(** ** The functions of Go's [strings] package used by the file *)
Module strings.

(** [strings.HasPrefix(s, prefix)] *)
Fixpoint HasPrefix (s prefix : string) : bool :=
  match prefix, s with
  | EmptyString, _ => true
  | String _ _, EmptyString => false
  | String a p, String b t => if Ascii.eqb a b then HasPrefix t p else false
  end.

Fixpoint drop_bytes (n : nat) (s : string) : string :=
  match n, s with
  | O, _ => s
  | S _, EmptyString => EmptyString
  | S m, String _ t => drop_bytes m t
  end.

(** [strings.TrimPrefix(s, prefix)]: [s] without the leading [prefix],
    [s] itself when it does not start with [prefix]. *)
Definition TrimPrefix (s prefix : string) : string :=
  if HasPrefix s prefix then drop_bytes (String.length prefix) s else s.

(** [strings.Split(s, sep)] for a one-byte separator: the pieces of [s]
    between the occurrences of [sep]; always at least one piece. *)
Fixpoint Split (s : string) (sep : ascii) : list string :=
  match s with
  | EmptyString => [EmptyString]
  | String c t =>
      if Ascii.eqb c sep then EmptyString :: Split t sep
      else match Split t sep with
           | [] => [String c EmptyString]
           | piece :: pieces => String c piece :: pieces
           end
  end.

(** [strings.Contains(s, substr)] for a one-byte [substr]. *)
Fixpoint Contains (s : string) (c : ascii) : bool :=
  match s with
  | EmptyString => false
  | String a t => if Ascii.eqb a c then true else Contains t c
  end.

(** [strings.Join(elems, sep)] *)
Fixpoint Join (elems : list string) (sep : string) : string :=
  match elems with
  | [] => ""
  | [e] => e
  | e :: rest => e +:+ sep +:+ Join rest sep
  end.

(** The white space of [strings.TrimSpace] among single bytes (command
    arguments are taken to be ASCII). *)
Definition is_space (c : ascii) : bool :=
  match nat_of_ascii c with
  | 9 | 10 | 11 | 12 | 13 | 32 => true
  | _ => false
  end.

Fixpoint all_space (s : string) : bool :=
  match s with
  | EmptyString => true
  | String c t => is_space c && all_space t
  end.

(** [strings.TrimSpace(s) != ""] *)
Definition TrimSpace_nonempty (s : string) : bool := negb (all_space s).

Fixpoint trim_left (s : string) (c : ascii) : string :=
  match s with
  | String a t => if Ascii.eqb a c then trim_left t c else s
  | EmptyString => EmptyString
  end.

Fixpoint trim_right (s : string) (c : ascii) : string :=
  match s with
  | EmptyString => EmptyString
  | String a t =>
      match trim_right t c with
      | EmptyString => if Ascii.eqb a c then EmptyString else String a EmptyString
      | t' => String a t'
      end
  end.

(** [strings.Trim(s, cutset)] for a one-byte [cutset]. *)
Definition Trim (s : string) (c : ascii) : string :=
  trim_right (trim_left s c) c.

End strings.

(** ** JSON documents, as [jsonparser] and [encoding/json] see them

    A [JString] carries the bytes between its quotes and a [JNumber] its
    literal, as [jsonparser] returns them. *)

#[local] Unset Elimination Schemes.
Inductive json : Type :=
| JNull
| JBool (b : bool)
| JNumber (literal : string)
| JString (s : string)
| JArray (elems : list json)
| JObject (members : list (string * json)).
#[local] Set Elimination Schemes.

Definition quote : string := String "034"%char EmptyString.

(** The text of a document, in the compact form [npm ls --json] is read in:
    no white space between tokens. *)
Fixpoint text (v : json) : string :=
  match v with
  | JNull => "null"
  | JBool true => "true"
  | JBool false => "false"
  | JNumber literal => literal
  | JString s => quote +:+ s +:+ quote
  | JArray elems =>
      "[" +:+
      (fix items (l : list json) : string :=
         match l with
         | [] => ""
         | [e] => text e
         | e :: rest => text e +:+ "," +:+ items rest
         end) elems
      +:+ "]"
  | JObject members =>
      "{" +:+
      (fix fields (l : list (string * json)) : string :=
         match l with
         | [] => ""
         | [(k, e)] => quote +:+ k +:+ quote +:+ ":" +:+ text e
         | (k, e) :: rest =>
             quote +:+ k +:+ quote +:+ ":" +:+ text e +:+ "," +:+ fields rest
         end) members
      +:+ "}"
  end.

(** The [value []byte] that [jsonparser] hands out for a document: its text,
    with the quotes of a string stripped. *)
Definition bytes_of (v : json) : string :=
  match v with
  | JString s => s
  | _ => text v
  end.

(** ** Errors

    [jsonparser]'s and [encoding/json]'s own errors are constructors; every
    error made with [errors.New] or [fmt.Errorf], and the errors of the
    collaborators, are an [ErrorString].  A run-time panic unwinds the whole
    call and is propagated like an error. *)

Inductive error : Type :=
| KeyPathNotFoundError
| MalformedObjectError
| MalformedJsonError
| UnmarshalError (detail : string)
| Panic (detail : string)
| ErrorString (msg : string).

(** [err.Error()] *)
Definition Error (e : error) : string :=
  match e with
  | KeyPathNotFoundError => "Key path not found"
  | MalformedObjectError => "Value looks like object, but can't find closing '}' symbol"
  | MalformedJsonError => "Malformed JSON error"
  | UnmarshalError detail => detail
  | Panic detail => detail
  | ErrorString msg => msg
  end.

#[global] Instance error_eq_dec : EqDecision error.
Proof. solve_decision. Defined.

Inductive Result (A : Type) : Type :=
| Ok (a : A)
| Err (e : error).
Arguments Ok {A} a.
Arguments Err {A} e.

(** ** The log *)

Inductive Level : Type := DEBUG | WARN.

Record LogEntry : Type := mkLog { level : Level; message : string }.

Definition Log : Type := list LogEntry.

Definition Debug (log : Log) (msg : string) : Log := log ++ [mkLog DEBUG msg].
Definition Warn (log : Log) (msg : string) : Log := log ++ [mkLog WARN msg].

(** ** The records of one dependency *)

(** npm >=7 ls results for a single dependency.  [Problems] and
    [PeerMissing] are [None] for Go's [nil]. *)
Record npmLsDependency : Type := mkNpmLsDependency {
  Name : string;
  Version : string;
  Integrity : string;
  InBundle : bool;
  Dev : bool;
  Optional : bool;
  Missing : bool;
  Problems : option (list string);
  PeerMissing : option json
}.

(** npm 6 ls results for a single dependency. *)
Record legacyNpmLsDependency : Type := mkLegacyNpmLsDependency {
  lName : string;
  lVersion : string;
  lMissing : bool;
  lIntegrity : string;
  lInBundle : bool;
  lDev : bool;
  lInnerOptional : bool;
  lOptional : bool;
  lPeerMissing : option json
}.

Definition optional (lnld : legacyNpmLsDependency) : bool :=
  if lOptional lnld then true else lInnerOptional lnld.

Definition toNpmLsDependency (lnld : legacyNpmLsDependency) : npmLsDependency :=
  {| Name := lName lnld;
     Version := lVersion lnld;
     Integrity := lIntegrity lnld;
     InBundle := lInBundle lnld;
     Dev := lDev lnld;
     Optional := optional lnld;
     Missing := lMissing lnld;
     Problems := None;
     PeerMissing := lPeerMissing lnld |}.

(** Return name:version of a dependency *)
Definition id (nld : npmLsDependency) : string :=
  Name nld +:+ ":" +:+ Version nld.

Definition getScopes (nld : npmLsDependency) : list string :=
  let scopes := if Dev nld then ["dev"] else ["prod"] in
  if strings.HasPrefix (Name nld) "@" then
    let splitValues := strings.Split (Name nld) "/"%char in
    if Nat.ltb 2 (length splitValues) then scopes ++ [hd "" splitValues]
    else scopes
  else scopes.

(** Modelled from the spec: [entities.Checksum] and [entities.Dependency] are
    declared in the [entities] package, which is not among the sources; the
    fields are those of the spec's CanonicalDependency ([id], [scopes],
    [requestedBy], [checksums] = [{md5, sha1, sha256}]). *)
Record Checksum : Type := mkChecksum {
  Sha1 : string;
  Md5 : string;
  Sha256 : string
}.

Record Dependency : Type := mkDependency {
  Id : string;
  Scopes : list string;
  RequestedBy : list (list string);
  checksum : Checksum
}.

(** [dependencyInfo] embeds a [Dependency] and points to the
    [npmLsDependency] of the occurrence that created it.  That record is
    reachable from nowhere else once the walk has moved on, so the pointer is
    modelled by the record itself. *)
Record dependencyInfo : Type := mkDependencyInfo {
  dependency : Dependency;
  lsDependency : npmLsDependency
}.

Definition set_Integrity (s : string) (nld : npmLsDependency) : npmLsDependency :=
  {| Name := Name nld; Version := Version nld; Integrity := s;
     InBundle := InBundle nld; Dev := Dev nld; Optional := Optional nld;
     Missing := Missing nld; Problems := Problems nld;
     PeerMissing := PeerMissing nld |}.

Definition set_Scopes (l : list string) (d : Dependency) : Dependency :=
  {| Id := Id d; Scopes := l; RequestedBy := RequestedBy d; checksum := checksum d |}.

Definition set_RequestedBy (l : list (list string)) (d : Dependency) : Dependency :=
  {| Id := Id d; Scopes := Scopes d; RequestedBy := l; checksum := checksum d |}.

Definition set_checksum (c : Checksum) (d : Dependency) : Dependency :=
  {| Id := Id d; Scopes := Scopes d; RequestedBy := RequestedBy d; checksum := c |}.

(** Merge two scopes and remove duplicates.  [contained] is the Go
    [map[string]bool], read with [false] for an absent key. *)
Fixpoint appendScopes_loop (contained : gmap string bool) (allScopes : list string)
    (scopes : list string) : list string :=
  match scopes with
  | [] => allScopes
  | scope :: rest =>
      if decide (scope = "") then appendScopes_loop contained allScopes rest
      else
        let allScopes' :=
          if negb (default false (contained !! scope)) then allScopes ++ [scope]
          else allScopes in
        appendScopes_loop (<[scope := true]> contained) allScopes' rest
  end.

Definition appendScopes (oldScopes newScopes : list string) : list string :=
  appendScopes_loop ∅ [] (oldScopes ++ newScopes).
Arguments appendScopes : simpl never.

Definition appendDependency (dependencies : gmap string dependencyInfo)
    (dep : npmLsDependency) (pathToRoot : list string) : gmap string dependencyInfo :=
  let depId := id dep in
  let scopes := getScopes dep in
  let entry :=
    match dependencies !! depId with
    | None =>
        {| dependency := {| Id := depId; Scopes := []; RequestedBy := [];
                            checksum := mkChecksum "" "" "" |};
           lsDependency := dep |}
    | Some existing => existing
    end in
  let entry :=
    if decide (Integrity (lsDependency entry) = "")
    then {| dependency := dependency entry;
            lsDependency := set_Integrity (Integrity dep) (lsDependency entry) |}
    else entry in
  let entry :=
    {| dependency := set_Scopes (appendScopes (Scopes (dependency entry)) scopes)
                       (dependency entry);
       lsDependency := lsDependency entry |} in
  let entry :=
    {| dependency := set_RequestedBy (RequestedBy (dependency entry) ++ [pathToRoot])
                       (dependency entry);
       lsDependency := lsDependency entry |} in
  <[depId := entry]> dependencies.

(** ** [jsonparser] on documents *)

(** [jsonparser.ObjectEach(data, callback)]: the members of an object in the
    order of the text, until the callback returns an error; anything that is
    not an object is refused.  [S] is the state the callback works on. *)
Fixpoint each_member {S : Type} (callback : string -> json -> S -> S * option error)
    (members : list (string * json)) (st : S) : S * option error :=
  match members with
  | [] => (st, None)
  | (key, value) :: rest =>
      match callback key value st with
      | (st', Some e) => (st', Some e)
      | (st', None) => each_member callback rest st'
      end
  end.

Definition ObjectEach {S : Type} (data : json)
    (callback : string -> json -> S -> S * option error) (st : S) : S * option error :=
  match data with
  | JObject members => each_member callback members st
  | _ => (st, Some MalformedObjectError)
  end.

(** [jsonparser.Get(data, key)]: the value of the first member called [key]. *)
Fixpoint get_member (members : list (string * json)) (key : string) : Result json :=
  match members with
  | [] => Err KeyPathNotFoundError
  | (k, v) :: rest => if decide (k = key) then Ok v else get_member rest key
  end.

Definition Get (data : json) (key : string) : Result json :=
  match data with
  | JObject members => get_member members key
  | _ => Err KeyPathNotFoundError
  end.

(** ** [encoding/json] on the two record shapes

    [json.Unmarshal] matches a member to a field by its name without regard
    to case, lets a later member of the same name overwrite an earlier one,
    leaves a field alone on [null] (a slice or an interface becomes [nil]) and
    reports a member of the wrong kind.  A string member is never read as a
    document of its own. *)

Definition lower_byte (c : ascii) : ascii :=
  let n := nat_of_ascii c in
  if (Nat.leb 65 n && Nat.leb n 90)%bool then ascii_of_nat (n + 32) else c.

Fixpoint lower (s : string) : string :=
  match s with
  | EmptyString => EmptyString
  | String c t => String (lower_byte c) (lower t)
  end.

Definition as_string (field : string) (v : json) (old : string) : Result string :=
  match v with
  | JString s => Ok s
  | JNull => Ok old
  | _ => Err (UnmarshalError field)
  end.

Definition as_bool (field : string) (v : json) (old : bool) : Result bool :=
  match v with
  | JBool b => Ok b
  | JNull => Ok old
  | _ => Err (UnmarshalError field)
  end.

Fixpoint as_strings (field : string) (elems : list json) : Result (list string) :=
  match elems with
  | [] => Ok []
  | e :: rest =>
      match as_string field e "", as_strings field rest with
      | Ok s, Ok l => Ok (s :: l)
      | Err e, _ => Err e
      | _, Err e => Err e
      end
  end.

Definition as_string_slice (field : string) (v : json) : Result (option (list string)) :=
  match v with
  | JArray elems =>
      match as_strings field elems with Ok l => Ok (Some l) | Err e => Err e end
  | JNull => Ok None
  | _ => Err (UnmarshalError field)
  end.

Definition as_interface (v : json) : option json :=
  match v with
  | JNull => None
  | _ => Some v
  end.

Definition zero_npmLsDependency : npmLsDependency :=
  mkNpmLsDependency "" "" "" false false false false None None.

Definition zero_legacyNpmLsDependency : legacyNpmLsDependency :=
  mkLegacyNpmLsDependency "" "" false "" false false false false None.

Definition map_result {A B : Type} (f : A -> B) (r : Result A) : Result B :=
  match r with Ok a => Ok (f a) | Err e => Err e end.

Definition set_member (d : npmLsDependency) (key : string) (v : json) : Result npmLsDependency :=
  let f := lower key in
  if decide (f = "name") then
    map_result (fun x => mkNpmLsDependency x (Version d) (Integrity d) (InBundle d) (Dev d)
       (Optional d) (Missing d) (Problems d) (PeerMissing d)) (as_string "Name" v (Name d))
  else if decide (f = "version") then
    map_result (fun x => mkNpmLsDependency (Name d) x (Integrity d) (InBundle d) (Dev d)
       (Optional d) (Missing d) (Problems d) (PeerMissing d)) (as_string "Version" v (Version d))
  else if decide (f = "integrity") then
    map_result (fun x => set_Integrity x d) (as_string "Integrity" v (Integrity d))
  else if decide (f = "inbundle") then
    map_result (fun x => mkNpmLsDependency (Name d) (Version d) (Integrity d) x (Dev d)
       (Optional d) (Missing d) (Problems d) (PeerMissing d)) (as_bool "InBundle" v (InBundle d))
  else if decide (f = "dev") then
    map_result (fun x => mkNpmLsDependency (Name d) (Version d) (Integrity d) (InBundle d) x
       (Optional d) (Missing d) (Problems d) (PeerMissing d)) (as_bool "Dev" v (Dev d))
  else if decide (f = "optional") then
    map_result (fun x => mkNpmLsDependency (Name d) (Version d) (Integrity d) (InBundle d) (Dev d)
       x (Missing d) (Problems d) (PeerMissing d)) (as_bool "Optional" v (Optional d))
  else if decide (f = "missing") then
    map_result (fun x => mkNpmLsDependency (Name d) (Version d) (Integrity d) (InBundle d) (Dev d)
       (Optional d) x (Problems d) (PeerMissing d)) (as_bool "Missing" v (Missing d))
  else if decide (f = "problems") then
    map_result (fun x => mkNpmLsDependency (Name d) (Version d) (Integrity d) (InBundle d) (Dev d)
       (Optional d) (Missing d) x (PeerMissing d)) (as_string_slice "Problems" v)
  else if decide (f = "peermissing") then
    Ok (mkNpmLsDependency (Name d) (Version d) (Integrity d) (InBundle d) (Dev d)
       (Optional d) (Missing d) (Problems d) (as_interface v))
  else Ok d.

Definition set_legacy_member (d : legacyNpmLsDependency) (key : string) (v : json)
    : Result legacyNpmLsDependency :=
  let f := lower key in
  if decide (f = "name") then
    map_result (fun x => mkLegacyNpmLsDependency x (lVersion d) (lMissing d) (lIntegrity d)
       (lInBundle d) (lDev d) (lInnerOptional d) (lOptional d) (lPeerMissing d))
      (as_string "Name" v (lName d))
  else if decide (f = "version") then
    map_result (fun x => mkLegacyNpmLsDependency (lName d) x (lMissing d) (lIntegrity d)
       (lInBundle d) (lDev d) (lInnerOptional d) (lOptional d) (lPeerMissing d))
      (as_string "Version" v (lVersion d))
  else if decide (f = "missing") then
    map_result (fun x => mkLegacyNpmLsDependency (lName d) (lVersion d) x (lIntegrity d)
       (lInBundle d) (lDev d) (lInnerOptional d) (lOptional d) (lPeerMissing d))
      (as_bool "Missing" v (lMissing d))
  else if decide (f = "_integrity") then
    map_result (fun x => mkLegacyNpmLsDependency (lName d) (lVersion d) (lMissing d) x
       (lInBundle d) (lDev d) (lInnerOptional d) (lOptional d) (lPeerMissing d))
      (as_string "Integrity" v (lIntegrity d))
  else if decide (f = "_inbundle") then
    map_result (fun x => mkLegacyNpmLsDependency (lName d) (lVersion d) (lMissing d) (lIntegrity d)
       x (lDev d) (lInnerOptional d) (lOptional d) (lPeerMissing d))
      (as_bool "InBundle" v (lInBundle d))
  else if decide (f = "_development") then
    map_result (fun x => mkLegacyNpmLsDependency (lName d) (lVersion d) (lMissing d) (lIntegrity d)
       (lInBundle d) x (lInnerOptional d) (lOptional d) (lPeerMissing d))
      (as_bool "Dev" v (lDev d))
  else if decide (f = "_optional") then
    map_result (fun x => mkLegacyNpmLsDependency (lName d) (lVersion d) (lMissing d) (lIntegrity d)
       (lInBundle d) (lDev d) x (lOptional d) (lPeerMissing d))
      (as_bool "InnerOptional" v (lInnerOptional d))
  else if decide (f = "optional") then
    map_result (fun x => mkLegacyNpmLsDependency (lName d) (lVersion d) (lMissing d) (lIntegrity d)
       (lInBundle d) (lDev d) (lInnerOptional d) x (lPeerMissing d))
      (as_bool "Optional" v (lOptional d))
  else if decide (f = "peermissing") then
    Ok (mkLegacyNpmLsDependency (lName d) (lVersion d) (lMissing d) (lIntegrity d)
       (lInBundle d) (lDev d) (lInnerOptional d) (lOptional d) (as_interface v))
  else Ok d.

(** The members of an object decoded one after the other into a record;
    the first member of the wrong kind decides the error. *)
Fixpoint decode_members {R : Type} (set : R -> string -> json -> Result R)
    (members : list (string * json)) (d : R) : Result R :=
  match members with
  | [] => Ok d
  | (key, v) :: rest =>
      match set d key v with
      | Ok d' => decode_members set rest d'
      | Err e => Err e
      end
  end.

(** [json.Unmarshal] of a document into a fresh record.  The result is [None]
    for the document [null], which sets a pointer to the record to [nil] and
    leaves a record passed by its address as it is. *)
Definition Unmarshal {R : Type} (set : R -> string -> json -> Result R) (zero : R)
    (data : json) : Result (option R) :=
  match data with
  | JObject members => map_result Some (decode_members set members zero)
  | JNull => Ok None
  | _ => Err (UnmarshalError "")
  end.

Definition nil_dereference : error :=
  Panic "runtime error: invalid memory address or nil pointer dereference".

Definition legacyNpmLsDependencyParser (data : json) : Result npmLsDependency :=
  match Unmarshal set_legacy_member zero_legacyNpmLsDependency data with
  | Err err => Err err
  | Ok None => Err nil_dereference
  | Ok (Some legacyNpmLsDependency) => Ok (toNpmLsDependency legacyNpmLsDependency)
  end.

Definition npmLsDependencyParser (data : json) : Result npmLsDependency :=
  match Unmarshal set_member zero_npmLsDependency data with
  | Err err => Err err
  | Ok None => Err nil_dereference
  | Ok (Some npmLsDependency) => Ok npmLsDependency
  end.

(** ** The tree walk *)

(** The state of the walk: the map the source mutates in place, and the log.
    The source returns its error next to that state, not instead of it. *)
Record Walk : Type := mkWalk {
  dependencies : gmap string dependencyInfo;
  walk_log : Log
}.

Definition not_nil {A : Type} (o : option A) : bool :=
  match o with Some _ => true | None => false end.

Definition missing_optional_msg (key : string) : string :=
  key +:+ " is missing. This may be the result of an optional dependency.".

Definition missing_peer_msg (key : string) : string :=
  key +:+ " is missing, this may be the result of an peer dependency.".

Definition failed_to_parse (value : json) : error :=
  ErrorString ("failed to parse '" +:+ bytes_of value +:+ "' from npm ls output.").

(** Parses npm dependencies recursively and adds the collected dependencies
    to the given dependencies map.  The recursive call sits inside the search
    for the [dependencies] member so that it is made on a part of [data];
    [parseDependencies_eq] below restates the function with [ObjectEach] and
    [Get], as the source is written. *)
Fixpoint parseDependencies (parseFunc : json -> Result npmLsDependency) (data : json)
    (pathToRoot : list string) (st : Walk) {struct data} : Walk * option error :=
  match data with
  | JObject members =>
      (fix each (ms : list (string * json)) (st : Walk) {struct ms} : Walk * option error :=
         match ms with
         | [] => (st, None)
         | (key, value) :: rest =>
             let r :=
               if decide (bytes_of value = "{}") then
                 (mkWalk (dependencies st) (Debug (walk_log st) (missing_optional_msg key)), None)
               else
                 match parseFunc value with
                 | Err err => (st, Some err)
                 | Ok npmLsDependency =>
                     if decide (Version npmLsDependency = "") then
                       if (Missing npmLsDependency || not_nil (Problems npmLsDependency))%bool then
                         (mkWalk (dependencies st)
                            (Debug (walk_log st) (missing_peer_msg key)), None)
                       else (st, Some (failed_to_parse value))
                     else
                       let st1 :=
                         mkWalk (appendDependency (dependencies st) npmLsDependency pathToRoot)
                           (walk_log st) in
                       match value with
                       | JObject fields =>
                           (fix get (l : list (string * json)) : Walk * option error :=
                              match l with
                              | [] => (st1, None)
                              | (k, transitive) :: l' =>
                                  if decide (k = "dependencies") then
                                    if Nat.ltb 0 (String.length (bytes_of transitive)) then
                                      parseDependencies parseFunc transitive
                                        (id npmLsDependency :: pathToRoot) st1
                                    else (st1, None)
                                  else get l'
                              end) fields
                       | _ => (st1, None)
                       end
                 end in
             match r with
             | (st', Some e) => (st', Some e)
             | (st', None) => each rest st'
             end
         end) members st
  | _ => (st, Some MalformedObjectError)
  end.

(** The callback of [parseDependencies], as the source writes it. *)
Definition visit (parseFunc : json -> Result npmLsDependency) (pathToRoot : list string)
    (key : string) (value : json) (st : Walk) : Walk * option error :=
  if decide (bytes_of value = "{}") then
    (* Skip missing optional dependency. *)
    (mkWalk (dependencies st) (Debug (walk_log st) (missing_optional_msg key)), None)
  else
    match parseFunc value with
    | Err err => (st, Some err)
    | Ok npmLsDependency =>
        if decide (Version npmLsDependency = "") then
          if (Missing npmLsDependency || not_nil (Problems npmLsDependency))%bool then
            (* Skip missing peer dependency. *)
            (mkWalk (dependencies st) (Debug (walk_log st) (missing_peer_msg key)), None)
          else (st, Some (failed_to_parse value))
        else
          let st1 :=
            mkWalk (appendDependency (dependencies st) npmLsDependency pathToRoot)
              (walk_log st) in
          match Get value "dependencies" with
          | Err err =>
              if decide (Error err = "Key path not found") then (st1, None)
              else (st1, Some err)
          | Ok transitive =>
              if Nat.ltb 0 (String.length (bytes_of transitive)) then
                parseDependencies parseFunc transitive (id npmLsDependency :: pathToRoot) st1
              else (st1, None)
          end
    end.

(** ** The package manifest *)

Record PackageInfo : Type := mkPackageInfo {
  pName : string;
  pVersion : string;
  Scope : string
}.

Definition zero_PackageInfo : PackageInfo := mkPackageInfo "" "" "".

Definition set_package_member (d : PackageInfo) (key : string) (v : json) : Result PackageInfo :=
  let f := lower key in
  if decide (f = "name") then
    map_result (fun x => mkPackageInfo x (pVersion d) (Scope d)) (as_string "Name" v (pName d))
  else if decide (f = "version") then
    map_result (fun x => mkPackageInfo (pName d) x (Scope d)) (as_string "Version" v (pVersion d))
  else if decide (f = "scope") then
    map_result (fun x => mkPackageInfo (pName d) (pVersion d) x) (as_string "Scope" v (Scope d))
  else Ok d.

(** ** The collaborators and the commands *)

Module NpmCmd.
Inductive t : Type := Ls | Config | Install | Ci | Pack | Version.

Definition String (nc : t) : string :=
  match nc with
  | Ls => "ls"
  | Config => "config"
  | Install => "install"
  | Ci => "ci"
  | Pack => "pack"
  | Version => "-version"
  end.
End NpmCmd.

Definition nl : string := String "010"%char EmptyString.

(** What the file calls outside itself.  [Compare v other] is
    [version.NewVersion(v).Compare(other)]; [command_Run path args dir] is
    [exec.Command(path, args...)] run in [dir], with its standard output,
    its error output and the error of [Run]; [document] is the document
    [jsonparser] reads in bytes and [json_Unmarshal] the one [encoding/json]
    reads; [range_order] is the order in which [range] visits the entries of
    a map. *)
Record World : Type := mkWorld {
  Compare : string -> string -> Z;
  command_Run : string -> list string -> string -> string * string * option error;
  IsDirExists : string -> bool -> bool * option error;
  filepath_Join : string -> string -> string;
  document : string -> Result json;
  json_Unmarshal : string -> Result json;
  ReadFile : string -> Result string;
  GetInfo : string -> string -> Result string;
  GetTarball : string -> string -> Result string;
  GetFileChecksums : string -> string * string * string * option error;
  range_order : gmap string dependencyInfo -> list dependencyInfo
}.

(** Code that logs and may return early with an error. *)
Definition M (A : Type) : Type := Log -> Result A * Log.

Definition ret {A : Type} (a : A) : M A := fun log => (Ok a, log).
Definition fail {A : Type} (e : error) : M A := fun log => (Err e, log).
Definition bind {A B : Type} (m : M A) (k : A -> M B) : M B :=
  fun log => match m log with
             | (Ok a, log') => k a log'
             | (Err e, log') => (Err e, log')
             end.
Definition log_Debug (msg : string) : M unit := fun log => (Ok tt, Debug log msg).
Definition log_Warn (msg : string) : M unit := fun log => (Ok tt, Warn log msg).
Definition when (b : bool) (m : M unit) : M unit := if b then m else ret tt.

Notation "'let*' p ':=' m 'in' k" := (bind m (fun p => k))
  (at level 10, p pattern, m at level 100, k at level 200).
Notation "m ;;; k" := (bind m (fun _ => k))
  (at level 100, right associativity).

Section Commands.
Variable w : World.

Definition RunNpmCmd (executablePath srcPath : string) (npmCmd : NpmCmd.t)
    (npmArgs : list string) : M (string * string * option error) :=
  log_Debug ("Running npm " +:+ NpmCmd.String npmCmd +:+ " command.") ;;;
  let cmdArgs := [NpmCmd.String npmCmd] in
  let tmpArgs := List.filter strings.TrimSpace_nonempty npmArgs in
  let cmdArgs := cmdArgs ++ tmpArgs in
  let '(stdResult, errResult, err) := command_Run w executablePath cmdArgs srcPath in
  match err with
  | Some e =>
      ret (stdResult, errResult,
           Some (ErrorString ("error while running the command :'" +:+ executablePath
                   +:+ " " +:+ strings.Join cmdArgs " " +:+ "'" +:+ nl
                   +:+ "Error output is:" +:+ nl +:+ errResult +:+ nl
                   +:+ "Command error: is:" +:+ nl +:+ Error e)))
  | None =>
      log_Debug ("npm " +:+ NpmCmd.String npmCmd +:+ " standard output is:" +:+ nl
                 +:+ stdResult) ;;;
      ret (stdResult, errResult, None)
  end.

(** The version is kept as the string [version.NewVersion] wraps. *)
Definition GetNpmVersion (executablePath : string) : M string :=
  let* (versionData, _, err) := RunNpmCmd executablePath "" NpmCmd.Version [] in
  match err with
  | Some e => fail e
  | None => ret versionData
  end.

Definition parseNpmLsDependencyFunc (npmVersion : string) : json -> Result npmLsDependency :=
  (* If npm older than v7, use legacy struct for npm ls output. *)
  if Z.ltb 0 (Compare w npmVersion "7.0.0") then legacyNpmLsDependencyParser
  else npmLsDependencyParser.

Definition node_modules_not_found (srcPath : string) : error :=
  ErrorString ("node_modules isn't found in '" +:+ srcPath
    +:+ "'. Hint: Restore node_modules folder by running npm install or npm ci.").

(** What [CalculateDependenciesMap] does once the listing has been run and
    a failure of it has been let through: the rest of the function from the
    test of [errData] on. *)
Definition collect (executablePath moduleId data errData : string)
    : M (gmap string dependencyInfo * option error) :=
  let dependenciesMap : gmap string dependencyInfo := ∅ in
  when (Nat.ltb 0 (String.length errData))
    (log_Warn ("Some errors occurred while collecting dependencies info:" +:+ nl
               +:+ errData)) ;;;
  let* npmVersion := GetNpmVersion executablePath in
  let parseFunc := parseNpmLsDependencyFunc npmVersion in
  (* Parse the dependencies json object. *)
  fun log =>
    match document w data with
    | Err e => (Ok (dependenciesMap, Some e), log)
    | Ok doc =>
        let '(st, err) :=
          ObjectEach doc
            (fun key value st =>
               if decide (key = "dependencies")
               then parseDependencies parseFunc value [moduleId] st
               else (st, None))
            (mkWalk dependenciesMap log) in
        (Ok (dependencies st, err), walk_log st)
    end.

(** Run 'npm list ...' command and parse the returned result to create a
    dependencies map.  [Err e] is the source's [return nil, e]; the last
    statement returns the map together with the error of the walk. *)
Definition CalculateDependenciesMap (executablePath srcPath moduleId : string)
    (npmArgs : list string) : M (gmap string dependencyInfo * option error) :=
  let npmArgs := npmArgs ++ ["--json"; "--all"; "--long"] in
  let* (data, errData, err) := RunNpmCmd executablePath srcPath NpmCmd.Ls npmArgs in
  match err with
  | Some e =>
      let '(found, isDirExistsErr) :=
        IsDirExists w (filepath_Join w srcPath "node_modules") false in
      match isDirExistsErr with
      | Some e' => fail e'
      | None =>
          if negb found then fail (node_modules_not_found srcPath)
          else log_Warn ("npm list command failed with error:" +:+ " " +:+ Error e)
      end
  | None => ret tt
  end ;;;
  collect executablePath moduleId data errData.

(** Lookup for a dependency's tarball in npm cache, and calculate checksum.
    [cacache] is the location the cache object was made for. *)
Definition calculateChecksum (cacache name version integrity : string)
    : string * string * string * option error :=
  let lookup :=
    if decide (integrity = "") then GetInfo w cacache (name +:+ "@" +:+ version)
    else Ok integrity in
  match lookup with
  | Err err => ("", "", "", Some err)
  | Ok integrity =>
      match GetTarball w cacache integrity with
      | Err err => ("", "", "", Some err)
      | Ok path => GetFileChecksums w path
      end
  end.

(** Return the npm cache path. *)
Definition GetNpmConfigCache (srcPath executablePath : string) (npmArgs : list string)
    : M string :=
  let npmArgs := ["get"; "cache"] ++ npmArgs in
  let* (data, errData, err) :=
    RunNpmCmd executablePath srcPath NpmCmd.Config (npmArgs ++ ["--json=false"]) in
  when (Nat.ltb 0 (String.length errData))
    (log_Warn ("error while running the command :'" +:+ executablePath +:+ " "
               +:+ strings.Join npmArgs " " +:+ ":" +:+ nl +:+ errData)) ;;;
  match err with
  | Some e =>
      fail (ErrorString ("'" +:+ executablePath +:+ " " +:+ strings.Join npmArgs " "
              +:+ "' npm config command failed with an error: " +:+ Error e))
  | None =>
      let cachePath := filepath_Join w (strings.Trim data "010"%char) "_cacache" in
      let '(found, err) := IsDirExists w cachePath true in
      match err with
      | Some e => fail e
      | None =>
          if negb found then
            fail (ErrorString ("_cacache folder is not found in '" +:+ cachePath
              +:+ "'. Hint: Delete node_modules directory and run npm install or npm ci."))
          else ret cachePath
      end
  end.

(** The lists the loop of [CalculateNpmDependenciesList] fills. *)
Record Buckets : Type := mkBuckets {
  dependenciesList : list Dependency;
  missingPeerDeps : list string;
  missingBundledDeps : list string;
  missingOptionalDeps : list string;
  otherMissingDeps : list string;
  loop_log : Log
}.

Definition couldnt_calculate (depId : string) (err : error) : string :=
  "couldn't calculate checksum for " +:+ depId +:+ ". Error: '" +:+ Error err +:+ "'.".

(** One turn of the loop over the dependencies map.  [cacache] is only
    looked at when [calculateChecksums] is true. *)
Definition classify (calculateChecksums : bool) (cacache : string)
    (b : Buckets) (dep : dependencyInfo) : Buckets :=
  if (bool_decide (Integrity (lsDependency dep) = "") && InBundle (lsDependency dep))%bool then
    mkBuckets (dependenciesList b) (missingPeerDeps b)
      (missingBundledDeps b ++ [Id (dependency dep)])
      (missingOptionalDeps b) (otherMissingDeps b) (loop_log b)
  else if (bool_decide (Integrity (lsDependency dep) = "")
           && not_nil (PeerMissing (lsDependency dep)))%bool then
    mkBuckets (dependenciesList b) (missingPeerDeps b ++ [Id (dependency dep)])
      (missingBundledDeps b) (missingOptionalDeps b) (otherMissingDeps b) (loop_log b)
  else if calculateChecksums then
    let '(md5, sha1, sha256, err) :=
      calculateChecksum cacache (Name (lsDependency dep)) (Version (lsDependency dep))
        (Integrity (lsDependency dep)) in
    match err with
    | Some e =>
        if Optional (lsDependency dep) then
          mkBuckets (dependenciesList b) (missingPeerDeps b) (missingBundledDeps b)
            (missingOptionalDeps b ++ [Id (dependency dep)]) (otherMissingDeps b)
            (loop_log b)
        else
          mkBuckets (dependenciesList b) (missingPeerDeps b) (missingBundledDeps b)
            (missingOptionalDeps b) (otherMissingDeps b ++ [Id (dependency dep)])
            (Debug (loop_log b) (couldnt_calculate (Id (dependency dep)) e))
    | None =>
        mkBuckets
          (dependenciesList b ++ [set_checksum (mkChecksum sha1 md5 sha256) (dependency dep)])
          (missingPeerDeps b) (missingBundledDeps b) (missingOptionalDeps b)
          (otherMissingDeps b) (loop_log b)
    end
  else
    mkBuckets (dependenciesList b ++ [dependency dep]) (missingPeerDeps b)
      (missingBundledDeps b) (missingOptionalDeps b) (otherMissingDeps b) (loop_log b).

(** The loop [for _, dep := range dependenciesMap]. *)
Definition partition_map (calculateChecksums : bool) (cacache : string)
    (dependenciesMap : gmap string dependencyInfo) (log : Log) : Buckets :=
  fold_left (classify calculateChecksums cacache) (range_order w dependenciesMap)
    (mkBuckets [] [] [] [] [] log).

Definition printMissingDependenciesWarning (dependencyType : string)
    (deps : list string) : M unit :=
  log_Debug ("The following dependencies will not be included in the build-info, because the 'npm ls' command did not return their integrity."
    +:+ nl
    +:+ "The reason why the version wasn't returned may be because the package is a '"
    +:+ dependencyType +:+ "', which was not manually installed." +:+ nl
    +:+ " It is therefore okay to skip this dependency: " +:+ strings.Join deps ",").

(** CalculateNpmDependenciesList gets an npm project's dependencies. *)
Definition CalculateNpmDependenciesList (executablePath srcPath moduleId : string)
    (npmArgs : list string) (calculateChecksums : bool) : M (list Dependency) :=
  (* Calculate npm dependency tree using 'npm ls...'. *)
  let* (dependenciesMap, err) := CalculateDependenciesMap executablePath srcPath moduleId npmArgs in
  match err with
  | Some e => fail e
  | None =>
      let* cacache := (if calculateChecksums
                       then GetNpmConfigCache srcPath executablePath npmArgs
                       else ret "") in
      let* b := (fun log =>
                   let b := partition_map calculateChecksums cacache dependenciesMap log in
                   (Ok b, loop_log b)) in
      when (Nat.ltb 0 (length (missingPeerDeps b)))
        (printMissingDependenciesWarning "peerDependency" (missingPeerDeps b)) ;;;
      when (Nat.ltb 0 (length (missingBundledDeps b)))
        (printMissingDependenciesWarning "bundleDependencies" (missingBundledDeps b)) ;;;
      when (Nat.ltb 0 (length (missingOptionalDeps b)))
        (printMissingDependenciesWarning "optionalDependencies" (missingOptionalDeps b)) ;;;
      when (Nat.ltb 0 (length (otherMissingDeps b)))
        (log_Warn ("The following dependencies will not be included in the build-info, because they are missing in the npm cache: '"
           +:+ strings.Join (otherMissingDeps b) "," +:+ "'." +:+ nl
           +:+ "Hint: Try to delete 'node_models' and/or 'package-lock.json'.")) ;;;
      ret (dependenciesList b)
  end.

(** *** The package identity *)

Definition splitScopeFromName (packageInfo : PackageInfo) : PackageInfo :=
  if (strings.HasPrefix (pName packageInfo) "@"
      && strings.Contains (pName packageInfo) "/"%char)%bool then
    let splitValues := strings.Split (pName packageInfo) "/"%char in
    {| pName := nth 1 splitValues ""; pVersion := pVersion packageInfo;
       Scope := nth 0 splitValues "" |}
  else packageInfo.

(** A leading "=" or "v" character is stripped off and ignored by npm. *)
Definition removeVersionPrefixes (packageInfo : PackageInfo) : PackageInfo :=
  let version := strings.TrimPrefix (pVersion packageInfo) "v" in
  let version := strings.TrimPrefix version "=" in
  {| pName := pName packageInfo; pVersion := version; Scope := Scope packageInfo |}.

(** [npmVersion] is [None] for a [nil] version. *)
Definition ReadPackageInfo (data : string) (npmVersion : option string) : Result PackageInfo :=
  match json_Unmarshal w data with
  | Err err => Err err
  | Ok doc =>
      match Unmarshal set_package_member zero_PackageInfo doc with
      | Err err => Err err
      | Ok decoded =>
          let parsedResult := default zero_PackageInfo decoded in
          (* If npm older than v7, remove prefixes. *)
          let parsedResult :=
            match npmVersion with
            | Some v =>
                if Z.ltb 0 (Compare w v "7.0.0") then removeVersionPrefixes parsedResult
                else parsedResult
            | None => parsedResult
            end in
          Ok (splitScopeFromName parsedResult)
      end
  end.

Definition ReadPackageInfoFromPackageJson (packageJsonDirectory : string)
    (npmVersion : option string) : Result PackageInfo :=
  match ReadFile w (filepath_Join w packageJsonDirectory "package.json") with
  | Err err => Err err
  | Ok packageJson => ReadPackageInfo packageJson npmVersion
  end.

Definition BuildInfoModuleId (pi : PackageInfo) : string :=
  let nameBase := pName pi +:+ ":" +:+ pVersion pi in
  if decide (Scope pi = "") then nameBase
  else strings.TrimPrefix (Scope pi) "@" +:+ ":" +:+ nameBase.

Definition GetDeployPath (pi : PackageInfo) : string :=
  let fileName := pName pi +:+ "-" +:+ pVersion pi +:+ ".tgz" in
  if decide (Scope pi = "") then pName pi +:+ "/-/" +:+ fileName
  else Scope pi +:+ "/" +:+ pName pi +:+ "/-/" +:+ fileName.

Definition FullName (pi : PackageInfo) : string :=
  if decide (Scope pi = "") then pName pi
  else Scope pi +:+ "/" +:+ pName pi.

End Commands.

(** ** Vocabulary of the properties *)

(** The entry [appendDependency] leaves under [id dep], given the entry
    [cur] found there. *)
Definition merged (cur : option dependencyInfo) (dep : npmLsDependency)
    (pathToRoot : list string) : dependencyInfo :=
  match cur with
  | None =>
      {| dependency := {| Id := id dep; Scopes := appendScopes [] (getScopes dep);
                          RequestedBy := [pathToRoot]; checksum := mkChecksum "" "" "" |};
         lsDependency := dep |}
  | Some d =>
      {| dependency := {| Id := Id (dependency d);
                          Scopes := appendScopes (Scopes (dependency d)) (getScopes dep);
                          RequestedBy := RequestedBy (dependency d) ++ [pathToRoot];
                          checksum := checksum (dependency d) |};
         lsDependency :=
           set_Integrity
             (if decide (Integrity (lsDependency d) = "") then Integrity dep
              else Integrity (lsDependency d))
             (lsDependency d) |}
  end.

(** An occurrence of a dependency in the tree: its record and the path to
    the root it was met under. *)
Definition occurrence : Type := npmLsDependency * list string.

Definition appendAll (occs : list occurrence) (m : gmap string dependencyInfo)
    : gmap string dependencyInfo :=
  fold_left (fun m o => appendDependency m o.1 o.2) occs m.

(** The entry under [k] once the occurrences [occs] have been merged, from
    the entry [cur] found there before. *)
Definition entry_after (k : string) (occs : list occurrence)
    (cur : option dependencyInfo) : option dependencyInfo :=
  fold_left (fun cur o => if decide (id o.1 = k) then Some (merged cur o.1 o.2) else cur)
    occs cur.

(** A walk changes the map by merging a list of occurrences that does not
    depend on the map, adds to the log, and fails or not on its own. *)
Definition merges (run : Walk → Walk * option error) : Prop :=
  ∃ occs msgs err, ∀ st,
    run st = (mkWalk (appendAll occs (dependencies st)) (walk_log st ++ msgs), err).

Definition occurrences_of (k : string) (occs : list occurrence) : list occurrence :=
  List.filter (fun o => bool_decide (id o.1 = k)) occs.

Fixpoint first_nonempty (l : list string) : string :=
  match l with
  | [] => ""
  | s :: rest => if decide (s = "") then first_nonempty rest else s
  end.

Definition integrity_of (o : option dependencyInfo) : string :=
  match o with
  | Some d => Integrity (lsDependency d)
  | None => ""
  end.

(** What a later merge leaves alone in an entry. *)
Definition same_record (d d' : dependencyInfo) : Prop :=
  Id (dependency d') = Id (dependency d) ∧
  checksum (dependency d') = checksum (dependency d) ∧
  Name (lsDependency d') = Name (lsDependency d) ∧
  Version (lsDependency d') = Version (lsDependency d) ∧
  InBundle (lsDependency d') = InBundle (lsDependency d) ∧
  Dev (lsDependency d') = Dev (lsDependency d) ∧
  Optional (lsDependency d') = Optional (lsDependency d) ∧
  Missing (lsDependency d') = Missing (lsDependency d) ∧
  Problems (lsDependency d') = Problems (lsDependency d) ∧
  PeerMissing (lsDependency d') = PeerMissing (lsDependency d).

(** The labels of [old], then the labels of [new] not met before, without
    the empty label. *)
Fixpoint union_in_order (old new : list string) : list string :=
  match new with
  | [] => old
  | s :: rest =>
      if decide (s = "" ∨ s ∈ old) then union_in_order old rest
      else union_in_order (old ++ [s]) rest
  end.

(** A scope-group label: the first segment of a scoped package name. *)
Definition scope_group (s : string) : Prop := strings.HasPrefix s "@" = true.

(** What holds of every scopes list of the map. *)
Definition scopes_wf (l : list string) : Prop :=
  NoDup l ∧ ("dev" ∈ l ∨ "prod" ∈ l) ∧
  ∀ s, s ∈ l → s = "dev" ∨ s = "prod" ∨ scope_group s.



Definition ids_are_keys (m : gmap string dependencyInfo) : Prop :=
  ∀ k d, m !! k = Some d → Id (dependency d) = k.

Definition problems_nonempty (dep : npmLsDependency) : Prop :=
  ∃ p ps, Problems dep = Some (p :: ps).

(** A version without one leading [v] and, behind it, without one leading
    [=]. *)
Definition strip_v_then_eq (version : string) : string :=
  match version with
  | String "v" (String "=" rest) => rest
  | String "v" rest => rest
  | String "=" rest => rest
  | _ => version
  end.

(** The destinations of the assembler, and the rules of the specification,
    checked top to bottom. *)
Inductive Destination : Type :=
| MissingBundled | MissingPeer | MissingOptional | OtherMissing | Included.

#[global] Instance Destination_eq_dec : EqDecision Destination.
Proof. solve_decision. Defined.

Definition destination (w : World) (calculateChecksums : bool) (cacache : string)
    (dep : dependencyInfo) : Destination :=
  let r := lsDependency dep in
  let digest_empty := bool_decide (Integrity r = "") in
  let resolution_fails :=
    not_nil (calculateChecksum w cacache (Name r) (Version r) (Integrity r)).2 in
  if (digest_empty && InBundle r)%bool then MissingBundled
  else if (digest_empty && not_nil (PeerMissing r))%bool then MissingPeer
  else if (calculateChecksums && resolution_fails)%bool
       then (if Optional r then MissingOptional else OtherMissing)
  else Included.

Definition bucket (b : Buckets) (dest : Destination) : list string :=
  match dest with
  | MissingBundled => missingBundledDeps b
  | MissingPeer => missingPeerDeps b
  | MissingOptional => missingOptionalDeps b
  | OtherMissing => otherMissingDeps b
  | Included => Id <$> dependenciesList b
  end.

(** ** Sample collaborators and trees, for the examples *)
Module Sample.

Fixpoint digits (s : string) (acc : Z) : Z :=
  match s with
  | String c t =>
      let n := nat_of_ascii c in
      if (Nat.leb 48 n && Nat.leb n 57)%bool then digits t (10 * acc + Z.of_nat (n - 48))
      else acc
  | EmptyString => acc
  end.

(** A comparison by the major number: positive when [other] is newer. *)
Definition Compare (v other : string) : Z :=
  match (digits other 0 ?= digits v 0)%Z with
  | Gt => 1
  | Lt => -1
  | Eq => 0
  end%Z.

Definition shared (integrity : string) (dev : bool) : json :=
  JObject [("name", JString "shared"); ("version", JString "1.0.0");
           ("integrity", JString integrity); ("dev", JBool dev)].

(** The end-to-end scenario: [left] and [right] both bring [shared@1.0.0],
    with a digest, and as a development dependency, only under [right]. *)
Definition tree : json :=
  JObject
    [("left", JObject [("name", JString "left"); ("version", JString "1.0.0");
                       ("dependencies", JObject [("shared", shared "" false)])]);
     ("right", JObject [("name", JString "right"); ("version", JString "2.0.0");
                        ("dev", JBool true);
                        ("dependencies", JObject [("shared", shared "sha512-x" true)])]);
     ("absent", JObject []);
     ("peer", JObject [("name", JString "peer"); ("missing", JBool true)])].

Definition listing : json := JObject [("name", JString "pkgA"); ("dependencies", tree)].

Definition manifest : json :=
  JObject [("name", JString "@org/pkgA"); ("version", JString "=v1.2.3")].

(** A project whose listing fails when [ls_fails], whose [node_modules]
    exists when [installed], with npm [npm_version] and an empty cache. *)
Definition world (ls_fails installed : bool) (npm_version : string) : World :=
  mkWorld
    (* Compare *) Compare
    (* command_Run *)
    (fun _ args _ =>
       match args with
       | "ls" :: _ =>
           ("listing", "npm ERR! peer dep missing",
            if ls_fails then Some (ErrorString "exit status 1") else None)
       | _ => (npm_version, "", None)
       end)
    (* IsDirExists *) (fun _ _ => (installed, None))
    (* filepath_Join *) (fun a b => a +:+ "/" +:+ b)
    (* document *)
    (fun bytes =>
       if decide (bytes = "listing") then Ok listing else Err MalformedJsonError)
    (* json_Unmarshal *)
    (fun bytes =>
       if decide (bytes = "manifest") then Ok manifest else Err (UnmarshalError ""))
    (* ReadFile *) (fun _ => Ok "manifest")
    (* GetInfo *) (fun _ _ => Err (ErrorString "not in the cache index"))
    (* GetTarball *) (fun _ _ => Err (ErrorString "no tarball"))
    (* GetFileChecksums *) (fun _ => ("", "", "", Some (ErrorString "no file")))
    (* range_order *) (fun m => (map_to_list m).*2).

(** Two occurrences of one id with different flags. *)
Definition first_occurrence : npmLsDependency :=
  mkNpmLsDependency "shared" "1.0.0" "" true false false false None None.

Definition later_occurrence : npmLsDependency :=
  mkNpmLsDependency "shared" "1.0.0" "sha512-x" false true true false None (Some (JBool true)).

Definition after_first : gmap string dependencyInfo :=
  appendDependency ∅ first_occurrence ["left"].

(** A map with an entry for each way of being left out: bundled without a
    digest, peer-missing without a digest, optional and not in the cache,
    not in the cache. *)
Definition assorted : gmap string dependencyInfo :=
  appendAll
    [(mkNpmLsDependency "b" "1" "" true false false false None None, ["pkgA"]);
     (mkNpmLsDependency "p" "1" "" false false false false None (Some (JBool true)), ["pkgA"]);
     (mkNpmLsDependency "o" "1" "sha512-o" false false true false None None, ["pkgA"]);
     (mkNpmLsDependency "m" "1" "sha512-m" false false false false None None, ["pkgA"])]
    ∅.

(** A node without a version whose problems list is there and empty. *)
Definition empty_problems : json := JObject [("problems", JArray [])].

End Sample.

(** ** The executable and its version *)

(** [LookPath] is [exec.LookPath]: the path of an executable, or why it was
    not found.  The result is the pair of the version and the path of the
    source; [Err e] is its [return nil, "", e]. *)
Definition GetNpmVersionAndExecPath (w : World) (LookPath : string -> Result string)
    : M (string * string) :=
  match LookPath "npm" with
  | Err err => fail err
  | Ok npmExecPath =>
      if decide (npmExecPath = "") then
        fail (ErrorString "could not find the 'npm' executable in the system PATH")
      else
        log_Debug ("Using npm executable:" +:+ " " +:+ npmExecPath) ;;;
        let* (versionData, _, err) := RunNpmCmd w npmExecPath "" NpmCmd.Version [] in
        match err with
        | Some e => fail e
        | None =>
            log_Debug ("Using npm version:" +:+ " " +:+ versionData) ;;;
            ret (versionData, npmExecPath)
        end
  end.

(** ** Vocabulary of the further properties *)

(** An occurrence the walk under [root] can merge: its record was parsed
    from a node, has a version, and was met below [root]. *)
Definition walked (parseFunc : json -> Result npmLsDependency) (root : list string)
    (o : occurrence) : Prop :=
  Version o.1 ≠ "" ∧ root `suffix_of` o.2 ∧ ∃ value, parseFunc value = Ok o.1.

(** [merges], with a property of the occurrences and of the log entries. *)
Definition merges_of (Q : occurrence -> Prop) (run : Walk -> Walk * option error) : Prop :=
  ∃ occs msgs err,
    Forall Q occs ∧ Forall (fun entry => level entry = DEBUG) msgs ∧
    ∀ st, run st = (mkWalk (appendAll occs (dependencies st)) (walk_log st ++ msgs), err).

(** What holds of the entry under [k] in a map filled by walks under
    [root]. *)
Definition entry_inv (root : list string) (k : string) (d : dependencyInfo) : Prop :=
  Id (dependency d) = k ∧
  k = Name (lsDependency d) +:+ ":" +:+ Version (lsDependency d) ∧
  Version (lsDependency d) ≠ "" ∧
  scopes_wf (Scopes (dependency d)) ∧
  RequestedBy (dependency d) ≠ [] ∧
  Forall (fun path => root `suffix_of` path) (RequestedBy (dependency d)) ∧
  checksum (dependency d) = mkChecksum "" "" "".

Definition map_inv (root : list string) (m : gmap string dependencyInfo) : Prop :=
  ∀ k d, m !! k = Some d → entry_inv root k d.

(** The record the loop of the assembler puts into the final list for an
    entry it includes. *)
Definition included_record (w : World) (calculateChecksums : bool) (cacache : string)
    (dep : dependencyInfo) : Dependency :=
  if calculateChecksums then
    let '(md5, sha1, sha256, _) :=
      calculateChecksum w cacache (Name (lsDependency dep)) (Version (lsDependency dep))
        (Integrity (lsDependency dep)) in
    set_checksum (mkChecksum sha1 md5 sha256) (dependency dep)
  else dependency dep.

(** The line the loop of the assembler logs for an entry. *)
Definition loop_line (w : World) (calculateChecksums : bool) (cacache : string)
    (dep : dependencyInfo) : list LogEntry :=
  match destination w calculateChecksums cacache dep,
        (calculateChecksum w cacache (Name (lsDependency dep)) (Version (lsDependency dep))
           (Integrity (lsDependency dep))).2 with
  | OtherMissing, Some e => [mkLog DEBUG (couldnt_calculate (Id (dependency dep)) e)]
  | _, _ => []
  end.

(** An entry the assembler leaves out whatever the cache holds. *)
Definition left_out (dep : dependencyInfo) : bool :=
  bool_decide (Integrity (lsDependency dep) = "")
  && (InBundle (lsDependency dep) || not_nil (PeerMissing (lsDependency dep))).

(** ** A second sample project, for the further examples *)
Module Sample2.

(** A project whose listing succeeds, whose cache is found, and whose cache
    holds the tarball of one digest. *)
Definition world : World :=
  mkWorld
    (* Compare *) Sample.Compare
    (* command_Run *)
    (fun _ args _ =>
       match args with
       | "ls" :: _ => ("listing", "", None)
       | "config" :: _ => ("/home/u/.npm" +:+ nl, "", None)
       | _ => ("8.1.0", "", None)
       end)
    (* IsDirExists *) (fun _ _ => (true, None))
    (* filepath_Join *) (fun a b => a +:+ "/" +:+ b)
    (* document *)
    (fun bytes =>
       if decide (bytes = "listing") then Ok Sample.listing
       else if decide (bytes = "dependencies only")
            then Ok (JObject [("dependencies", Sample.tree)])
       else Err MalformedJsonError)
    (* json_Unmarshal *) (fun _ => Err (UnmarshalError ""))
    (* ReadFile *) (fun _ => Err (ErrorString "no such file"))
    (* GetInfo *) (fun _ _ => Err (ErrorString "not in the cache index"))
    (* GetTarball *)
    (fun _ integrity =>
       if decide (integrity = "sha512-x") then Ok "/home/u/.npm/_cacache/content/x"
       else Err (ErrorString "no tarball"))
    (* GetFileChecksums *) (fun _ => ("md5-x", "sha1-x", "sha256-x", None))
    (* range_order *) (fun m => (map_to_list m).*2).

Definition LookPath (file : string) : Result string :=
  if decide (file = "npm") then Ok "/usr/bin/npm"
  else Err (ErrorString "executable file not found in $PATH").

(** A legacy node of a missing peer dependency. *)
Definition missing_peer : json :=
  JObject [("name", JString "peer"); ("missing", JBool true);
           ("problems", JArray [JString "peer dep missing"])].

End Sample2.

(** * Properties *)

(** ** Scope labels *)

Section Scopes.
Implicit Types (old new acc l : list string) (contained : gmap string bool).

Lemma appendScopes_loop_union contained acc l :
  (∀ s, default false (contained !! s) = true ↔ s ∈ acc) →
  appendScopes_loop contained acc l = union_in_order acc l.
Proof.
  revert contained acc. induction l as [|s l IH]; intros contained acc Hc; simpl; [done|].
  destruct (decide (s = "")) as [->|Hs].
  - rewrite decide_True; [|by left]. by apply IH.
  - destruct (default false (contained !! s)) eqn:Hb; simpl.
    + rewrite decide_True; [|right; by apply Hc].
      apply IH. intros s'. destruct (decide (s = s')) as [<-|Hne].
      * rewrite lookup_insert_eq. simpl. split; [intros _; by apply Hc|done].
      * rewrite lookup_insert_ne; [|done]. apply Hc.
    + rewrite decide_False.
      2:{ intros [?|Hin]; [done|]. apply Hc in Hin. congruence. }
      apply IH. intros s'. rewrite elem_of_app, list_elem_of_singleton.
      destruct (decide (s = s')) as [<-|Hne].
      * rewrite lookup_insert_eq. simpl. split; [by right|done].
      * rewrite lookup_insert_ne; [|done]. rewrite Hc. split; [by left|].
        intros [?|?]; [done|congruence].
Qed.

Lemma appendScopes_union old new :
  appendScopes old new = union_in_order [] (old ++ new).
Proof.
  apply appendScopes_loop_union. intros s. rewrite lookup_empty. simpl.
  split; [done|]. by intros ?%elem_of_nil.
Qed.

Lemma union_in_order_app acc l1 l2 :
  union_in_order acc (l1 ++ l2) = union_in_order (union_in_order acc l1) l2.
Proof.
  revert acc. induction l1 as [|s l1 IH]; intros acc; simpl; [done|].
  case_decide; apply IH.
Qed.

Lemma union_in_order_prefix acc l : acc `prefix_of` union_in_order acc l.
Proof.
  revert acc. induction l as [|s l IH]; intros acc; simpl; [done|].
  case_decide; [apply IH|].
  etrans; [|apply IH]. by apply prefix_app_r.
Qed.

Lemma union_in_order_elem acc l s :
  s ∈ union_in_order acc l ↔ s ∈ acc ∨ (s ∈ l ∧ s ≠ "").
Proof.
  revert acc. induction l as [|x l IH]; intros acc; simpl.
  - split; [by left|]. intros [?|[?%elem_of_nil ?]]; done.
  - case_decide as Hx; rewrite IH, ?elem_of_app, ?list_elem_of_singleton, elem_of_cons.
    + split; [intros [?|[? ?]]; eauto|].
      intros [?|[[Heq|?] ?]]; eauto. subst x. destruct Hx; [done|by left].
    + split.
      * intros [[?|Heq]|[? ?]]; eauto. subst x.
        right. split; [by left|]. intros ->. apply Hx. by left.
      * intros [?|[[Heq|?] ?]]; eauto.
Qed.

Lemma union_in_order_NoDup acc l : NoDup acc → NoDup (union_in_order acc l).
Proof.
  revert acc. induction l as [|x l IH]; intros acc Hnd; simpl; [done|].
  case_decide as Hx; [by apply IH|].
  apply IH. apply NoDup_app. split_and!; [done| |apply NoDup_singleton].
  intros y Hy ->%list_elem_of_singleton. apply Hx. by right.
Qed.

Lemma union_in_order_no_empty acc l : "" ∉ acc → "" ∉ union_in_order acc l.
Proof. rewrite union_in_order_elem. intros ? [?|[_ ?]]; done. Qed.

Lemma union_in_order_absorb acc l :
  (∀ s, s ∈ l → s = "" ∨ s ∈ acc) → union_in_order acc l = acc.
Proof.
  induction l as [|x l IH]; intros Hl; simpl; [done|].
  rewrite decide_True; [|apply Hl; by left].
  apply IH. intros s Hs. apply Hl. by right.
Qed.

Lemma union_in_order_self acc l :
  NoDup l → "" ∉ l → (∀ s, s ∈ l → s ∉ acc) → union_in_order acc l = acc ++ l.
Proof.
  revert acc. induction l as [|x l IH]; intros acc Hnd He Hd; simpl.
  - by rewrite app_nil_r.
  - apply NoDup_cons in Hnd as [Hx Hnd]. apply not_elem_of_cons in He as [He1 He2].
    rewrite decide_False.
    2:{ intros [?|?]; [done|]. by eapply (Hd x); [left|]. }
    rewrite IH; [by rewrite <- app_assoc|done|done|].
    intros s Hs. rewrite elem_of_app, list_elem_of_singleton.
    intros [?| ->]; [|done]. eapply (Hd s); [by right|done].
Qed.

(** On a list without duplicates and without the empty label,
    [appendScopes] adds the new labels behind the old ones. *)
Lemma appendScopes_good old new :
  NoDup old → "" ∉ old → appendScopes old new = union_in_order old new.
Proof.
  intros Hnd He. rewrite appendScopes_union, union_in_order_app.
  f_equal. rewrite union_in_order_self; [done..|]. intros s _. apply not_elem_of_nil.
Qed.

Lemma appendScopes_NoDup old new : NoDup (appendScopes old new).
Proof. rewrite appendScopes_union. apply union_in_order_NoDup, NoDup_nil_2. Qed.

Lemma appendScopes_elem old new s :
  s ∈ appendScopes old new ↔ (s ∈ old ∨ s ∈ new) ∧ s ≠ "".
Proof.
  rewrite appendScopes_union, union_in_order_elem, elem_of_app.
  split; [intros [?%elem_of_nil|[? ?]]; done|]. intros [? ?]. by right.
Qed.

Lemma appendScopes_prefix old new :
  NoDup old → "" ∉ old → old `prefix_of` appendScopes old new.
Proof. intros. rewrite appendScopes_good by done. apply union_in_order_prefix. Qed.

Lemma appendScopes_absorb old new :
  NoDup old → "" ∉ old → (∀ s, s ∈ new → s = "" ∨ s ∈ old) →
  appendScopes old new = old.
Proof. intros. rewrite appendScopes_good by done. by apply union_in_order_absorb. Qed.

End Scopes.

(** ** The scopes of one record *)

Lemma Split_hd_scoped s :
  strings.HasPrefix s "@" = true →
  strings.HasPrefix (hd "" (strings.Split s "/"%char)) "@" = true.
Proof.
  destruct s as [|c t]; [done|]. cbn [strings.HasPrefix].
  destruct (Ascii.eqb_spec "@"%char c) as [<-|]; [|done]. intros _.
  cbn. destruct (strings.Split t "/"%char) as [|piece ?]; [done|by destruct piece].
Qed.

Lemma getScopes_cases nld :
  getScopes nld = [if Dev nld then "dev" else "prod"] ∨
  ∃ g, getScopes nld = [if Dev nld then "dev" else "prod"; g] ∧ scope_group g.
Proof.
  unfold getScopes.
  destruct (strings.HasPrefix (Name nld) "@") eqn:Hp; [|left; by destruct (Dev nld)].
  destruct (Nat.ltb 2 _); [|left; by destruct (Dev nld)].
  right. eexists. split; [by destruct (Dev nld)|]. by apply Split_hd_scoped.
Qed.

Lemma scope_group_not_label g : scope_group g → g ≠ "dev" ∧ g ≠ "prod" ∧ g ≠ "".
Proof. unfold scope_group. intros H. split_and!; intros ->; discriminate. Qed.

Lemma getScopes_wf nld : scopes_wf (getScopes nld).
Proof.
  destruct (getScopes_cases nld) as [Hs|(g & Hs & Hg)]; rewrite Hs; clear Hs.
  - split_and!.
    + apply NoDup_singleton.
    + destruct (Dev nld); [left|right]; by apply list_elem_of_singleton.
    + intros s ->%list_elem_of_singleton. destruct (Dev nld); eauto.
  - destruct (scope_group_not_label g Hg) as (? & ? & ?). split_and!.
    + apply NoDup_cons. split; [|apply NoDup_singleton].
      intros Hin%list_elem_of_singleton. by destruct (Dev nld).
    + destruct (Dev nld); [left|right]; by left.
    + intros s [->| ->%list_elem_of_singleton]%elem_of_cons; [|eauto].
      destruct (Dev nld); eauto.
Qed.

Lemma scopes_wf_no_empty l : scopes_wf l → "" ∉ l.
Proof.
  intros (_ & _ & H) Hin. destruct (H _ Hin) as [?|[?|?]]; [done|done|].
  by destruct (scope_group_not_label "" ).
Qed.

Lemma appendScopes_wf old nld :
  old = [] ∨ scopes_wf old → scopes_wf (appendScopes old (getScopes nld)).
Proof.
  intros Hold. pose proof (getScopes_wf nld) as (Hnd & Hdp & Hall).
  pose proof (scopes_wf_no_empty _ (getScopes_wf nld)) as Hne.
  split_and!.
  - apply appendScopes_NoDup.
  - destruct Hdp as [?|?]; [left|right]; apply appendScopes_elem; split; eauto;
      intros ?; discriminate.
  - intros s [[Hs|Hs] _]%appendScopes_elem; [|by apply Hall].
    destruct Hold as [->|(_ & _ & Ho)]; [by apply elem_of_nil in Hs|by apply Ho].
Qed.

(** ** One merge into the map *)

Lemma set_Integrity_same nld : set_Integrity (Integrity nld) nld = nld.
Proof. by destruct nld. Qed.

Lemma appendDependency_merged m dep pathToRoot :
  appendDependency m dep pathToRoot
  = <[id dep := merged (m !! id dep) dep pathToRoot]> m.
Proof.
  unfold appendDependency, merged. cbv zeta.
  destruct (m !! id dep) as [[[i sc rb cs] r]|]; cbn.
  - case_decide as Hr; cbn; [done|]. by rewrite set_Integrity_same.
  - case_decide; cbn; [|done]. by rewrite set_Integrity_same.
Qed.

Lemma appendDependency_lookup m dep pathToRoot :
  appendDependency m dep pathToRoot !! id dep = Some (merged (m !! id dep) dep pathToRoot).
Proof. rewrite appendDependency_merged. apply lookup_insert_eq. Qed.

Lemma appendDependency_lookup_ne m dep pathToRoot k :
  id dep ≠ k → appendDependency m dep pathToRoot !! k = m !! k.
Proof. intros. rewrite appendDependency_merged. by apply lookup_insert_ne. Qed.

Lemma appendAll_lookup occs m k :
  appendAll occs m !! k = entry_after k occs (m !! k).
Proof.
  unfold appendAll, entry_after. revert m.
  induction occs as [|[dep p] occs IH]; intros m; simpl; [done|].
  rewrite IH. f_equal. case_decide as Hk.
  - subst k. apply appendDependency_lookup.
  - by apply appendDependency_lookup_ne.
Qed.

Lemma appendAll_app occs1 occs2 m :
  appendAll (occs1 ++ occs2) m = appendAll occs2 (appendAll occs1 m).
Proof. unfold appendAll. apply fold_left_app. Qed.

Lemma entry_after_Some k occs d :
  is_Some (entry_after k occs (Some d)).
Proof.
  unfold entry_after. revert d. induction occs as [|o occs IH]; intros d; simpl; [eauto|].
  case_decide; apply IH.
Qed.

Lemma entry_after_None k occs :
  entry_after k occs None = None ↔ occurrences_of k occs = [].
Proof.
  induction occs as [|o occs IH]; [done|].
  change (entry_after k (o :: occs) None)
    with (entry_after k occs (if decide (id o.1 = k) then Some (merged None o.1 o.2) else None)).
  unfold occurrences_of in *. cbn [List.filter].
  case_decide as Hk.
  - rewrite bool_decide_eq_true_2 by done. split; [|done].
    intros H. destruct (entry_after_Some k occs (merged None o.1 o.2)) as [? Hs]. congruence.
  - by rewrite bool_decide_eq_false_2.
Qed.

(** ** The tree walk, as the source writes it *)

(** Induction on documents, with the hypothesis for every element of an
    array and every member of an object. *)
Lemma json_ind (P : json → Prop) :
  P JNull → (∀ b, P (JBool b)) → (∀ n, P (JNumber n)) → (∀ s, P (JString s)) →
  (∀ elems, Forall P elems → P (JArray elems)) →
  (∀ members, Forall (fun kv => P kv.2) members → P (JObject members)) →
  ∀ v, P v.
Proof.
  intros Hnull Hbool Hnum Hstr Harr Hobj.
  refine (fix go (v : json) : P v :=
    match v with
    | JNull => Hnull
    | JBool b => Hbool b
    | JNumber n => Hnum n
    | JString s => Hstr s
    | JArray elems =>
        Harr elems
          ((fix all (l : list json) : Forall P l :=
              match l with
              | [] => Forall_nil_2 _
              | e :: rest => Forall_cons_2 _ _ _ (go e) (all rest)
              end) elems)
    | JObject members =>
        Hobj members
          ((fix all (l : list (string * json)) : Forall (fun kv => P kv.2) l :=
              match l with
              | [] => Forall_nil_2 _
              | kv :: rest => Forall_cons_2 _ kv _ (go kv.2) (all rest)
              end) members)
    end).
Qed.

Lemma get_member_elem members key v :
  get_member members key = Ok v → (key, v) ∈ members.
Proof.
  induction members as [|[k x] members IH]; simpl; [done|].
  case_decide as Hk; [intros [= ->]; subst; by left|].
  intros ?. right. by apply IH.
Qed.

Lemma get_member_error members key e :
  get_member members key = Err e → e = KeyPathNotFoundError.
Proof.
  induction members as [|[k x] members IH]; simpl; [by intros [= <-]|].
  by case_decide.
Qed.

Lemma get_member_fused {A : Type} (f : json → A) (d : A) fields :
  (fix get (l : list (string * json)) : A :=
     match l with
     | [] => d
     | (k, transitive) :: l' =>
         if decide (k = "dependencies") then f transitive else get l'
     end) fields
  = match get_member fields "dependencies" with
    | Ok transitive => f transitive
    | Err _ => d
    end.
Proof.
  induction fields as [|[k t] fields IH]; [done|].
  cbn [get_member]. by case_decide.
Qed.

(** One turn of the loop of [parseDependencies]: the callback [visit] on the
    first member, then the remaining members unless it failed. *)
Lemma parseDependencies_cons parseFunc key value members pathToRoot st :
  parseDependencies parseFunc (JObject ((key, value) :: members)) pathToRoot st
  = match visit parseFunc pathToRoot key value st with
    | (st', Some e) => (st', Some e)
    | (st', None) => parseDependencies parseFunc (JObject members) pathToRoot st'
    end.
Proof.
  cbn [parseDependencies]. unfold visit.
  case_decide; [done|].
  destruct (parseFunc value) as [dep|e]; [|done].
  case_decide; [by destruct (Missing dep || not_nil (Problems dep))%bool|].
  destruct value as [| | | | |fields]; try reflexivity.
  cbn [Get]. rewrite get_member_fused.
  destruct (get_member fields "dependencies") as [t|e] eqn:Hget; [done|].
  apply get_member_error in Hget as ->. by rewrite decide_True.
Qed.

(** [parseDependencies] is [jsonparser.ObjectEach] over the callback
    [visit]. *)
Lemma parseDependencies_eq parseFunc data pathToRoot st :
  parseDependencies parseFunc data pathToRoot st
  = ObjectEach data (visit parseFunc pathToRoot) st.
Proof.
  destruct data as [| | | | |members]; try reflexivity.
  cbn [ObjectEach]. revert st.
  induction members as [|[key value] members IH]; intros st; [done|].
  rewrite parseDependencies_cons. cbn [each_member].
  destruct (visit _ _ _ _ _) as [st' [e|]]; [done|]. apply IH.
Qed.

(** ** A walk is a list of merges *)

Lemma merges_fail o : merges (fun st => (st, o)).
Proof. exists [], [], o. intros [m log]. cbn. by rewrite app_nil_r. Qed.

Lemma merges_skip msg :
  merges (fun st => (mkWalk (dependencies st) (Debug (walk_log st) msg), None)).
Proof. by exists [], [mkLog DEBUG msg], None. Qed.

Lemma merges_after dep pathToRoot run :
  merges run →
  merges (fun st => run (mkWalk (appendDependency (dependencies st) dep pathToRoot)
                                (walk_log st))).
Proof.
  intros (occs & msgs & err & Hrun). exists ((dep, pathToRoot) :: occs), msgs, err.
  intros st. by rewrite Hrun.
Qed.

Lemma merges_then run1 run2 :
  merges run1 → merges run2 →
  merges (fun st => match run1 st with
                    | (st', Some e) => (st', Some e)
                    | (st', None) => run2 st'
                    end).
Proof.
  intros (occs1 & msgs1 & err1 & H1) (occs2 & msgs2 & err2 & H2).
  destruct err1 as [e|].
  - exists occs1, msgs1, (Some e). intros st. by rewrite H1.
  - exists (occs1 ++ occs2), (msgs1 ++ msgs2), err2. intros st.
    rewrite H1, H2. cbn. by rewrite appendAll_app, app_assoc.
Qed.

Lemma merges_ext run1 run2 : (∀ st, run1 st = run2 st) → merges run1 → merges run2.
Proof.
  intros Heq (occs & msgs & err & H). exists occs, msgs, err.
  intros st. by rewrite <- Heq.
Qed.

Lemma visit_merges parseFunc pathToRoot key value :
  (∀ transitive path, Get value "dependencies" = Ok transitive →
     merges (parseDependencies parseFunc transitive path)) →
  merges (visit parseFunc pathToRoot key value).
Proof.
  intros Hrec. unfold visit.
  case_decide; [apply merges_skip|].
  destruct (parseFunc value) as [dep|e]; [|apply merges_fail].
  case_decide.
  { destruct (Missing dep || not_nil (Problems dep))%bool;
      [apply merges_skip|apply merges_fail]. }
  destruct (Get value "dependencies") as [t|e].
  - destruct (Nat.ltb 0 _).
    + apply (merges_after dep pathToRoot (parseDependencies parseFunc t (id dep :: pathToRoot))).
      by apply Hrec.
    + apply (merges_after dep pathToRoot (fun st => (st, None))), merges_fail.
  - case_decide.
    + apply (merges_after dep pathToRoot (fun st => (st, None))), merges_fail.
    + apply (merges_after dep pathToRoot (fun st => (st, Some e))), merges_fail.
Qed.

Lemma each_member_merges callback members :
  Forall (fun kv => merges (callback kv.1 kv.2)) members →
  merges (each_member callback members).
Proof.
  induction 1 as [|[key value] members Hkv _ IH]; [apply merges_fail|].
  cbn [each_member]. by apply (merges_then (callback key value)).
Qed.

Lemma parseDependencies_merges parseFunc data pathToRoot :
  merges (parseDependencies parseFunc data pathToRoot).
Proof.
  revert pathToRoot.
  cut ((∀ path, merges (parseDependencies parseFunc data path)) ∧
       ∀ fields, data = JObject fields →
         Forall (fun kt => ∀ path, merges (parseDependencies parseFunc kt.2 path)) fields).
  { by intros [? _]. }
  induction data as [| | | | |members IH] using json_ind;
    try (split; [intros; apply merges_fail|intros; discriminate]).
  split.
  - intros path.
    apply (merges_ext (ObjectEach (JObject members) (visit parseFunc path))).
    { intros st. by rewrite parseDependencies_eq. }
    cbn [ObjectEach]. apply each_member_merges.
    eapply Forall_impl; [exact IH|]. intros [key value] [_ Hsub]. cbn.
    apply visit_merges. intros t path' Hget.
    destruct value as [| | | | |fields]; try discriminate.
    apply get_member_elem in Hget.
    specialize (Hsub fields eq_refl). rewrite Forall_forall in Hsub.
    by apply (Hsub ("dependencies", t)).
  - intros fields [= <-]. eapply Forall_impl; [exact IH|]. by intros ? [? _].
Qed.

(** ** The entry of one id along a list of merges *)

Lemma entry_after_cons k o occs cur :
  entry_after k (o :: occs) cur
  = entry_after k occs (if decide (id o.1 = k) then Some (merged cur o.1 o.2) else cur).
Proof. reflexivity. Qed.

Lemma occurrences_of_cons k o occs :
  occurrences_of k (o :: occs)
  = if decide (id o.1 = k) then o :: occurrences_of k occs else occurrences_of k occs.
Proof.
  unfold occurrences_of. cbn [List.filter].
  case_decide; [by rewrite bool_decide_eq_true_2|by rewrite bool_decide_eq_false_2].
Qed.

Lemma integrity_of_merged cur dep pathToRoot :
  integrity_of (Some (merged cur dep pathToRoot))
  = if decide (integrity_of cur = "") then Integrity dep else integrity_of cur.
Proof. destruct cur as [d|]; cbn; [by case_decide|done]. Qed.

Lemma entry_after_integrity k occs cur :
  integrity_of (entry_after k occs cur)
  = first_nonempty (integrity_of cur :: ((fun o => Integrity o.1) <$> occurrences_of k occs)).
Proof.
  revert cur. induction occs as [|o occs IH]; intros cur.
  - cbn. case_decide; congruence.
  - rewrite entry_after_cons, occurrences_of_cons, IH. case_decide; [|done].
    rewrite integrity_of_merged. cbn. repeat case_decide; congruence.
Qed.

Lemma same_record_refl d : same_record d d.
Proof. by repeat split. Qed.

Lemma same_record_trans d1 d2 d3 : same_record d1 d2 → same_record d2 d3 → same_record d1 d3.
Proof. unfold same_record. intros ? ?. destruct_and!. split_and!; congruence. Qed.

Lemma same_record_merged d dep pathToRoot : same_record d (merged (Some d) dep pathToRoot).
Proof. by repeat split. Qed.

Lemma entry_after_same k occs d :
  ∃ d', entry_after k occs (Some d) = Some d' ∧ same_record d d' ∧
        length (RequestedBy (dependency d'))
        = length (RequestedBy (dependency d)) + length (occurrences_of k occs).
Proof.
  revert d. induction occs as [|o occs IH]; intros d.
  - exists d. split_and!; [done|apply same_record_refl|cbn; lia].
  - rewrite entry_after_cons, occurrences_of_cons. case_decide.
    + destruct (IH (merged (Some d) o.1 o.2)) as (d' & -> & Hsame & Hlen).
      exists d'. split_and!; [done| |].
      * eapply same_record_trans; [apply same_record_merged|done].
      * rewrite Hlen. cbn. rewrite length_app. cbn. lia.
    + apply IH.
Qed.

Lemma entry_after_head k occs o rest :
  occurrences_of k occs = o :: rest →
  ∃ d', entry_after k occs None = Some d' ∧ same_record (merged None o.1 o.2) d' ∧
        length (RequestedBy (dependency d')) = length (occurrences_of k occs).
Proof.
  induction occs as [|o' occs IH]; [done|].
  rewrite entry_after_cons, occurrences_of_cons. case_decide.
  - intros [= <- <-].
    destruct (entry_after_same k occs (merged None o'.1 o'.2)) as (d' & -> & Hsame & Hlen).
    exists d'. split_and!; [done..|]. rewrite Hlen. cbn. lia.
  - apply IH.
Qed.

Lemma entry_after_scopes_wf k occs cur d :
  (∀ d0, cur = Some d0 → scopes_wf (Scopes (dependency d0))) →
  entry_after k occs cur = Some d → scopes_wf (Scopes (dependency d)).
Proof.
  revert cur. induction occs as [|o occs IH]; intros cur Hcur.
  - intros ?. by apply Hcur.
  - rewrite entry_after_cons. apply IH. case_decide; [|done].
    intros d0 [= <-]. destruct cur as [d1|]; cbn; apply appendScopes_wf; eauto.
Qed.

Lemma entry_after_prefix k occs d d' :
  scopes_wf (Scopes (dependency d)) →
  entry_after k occs (Some d) = Some d' →
  Scopes (dependency d) `prefix_of` Scopes (dependency d').
Proof.
  revert d. induction occs as [|o occs IH]; intros d Hwf.
  - by intros [= ->].
  - rewrite entry_after_cons. case_decide; [|by apply IH].
    intros Hd'. etrans; [|eapply IH; [|exact Hd']].
    + cbn. apply appendScopes_prefix; [apply Hwf|by apply scopes_wf_no_empty].
    + cbn. apply appendScopes_wf. by right.
Qed.

Lemma entry_after_covers k occs cur d o s :
  (∀ d0, cur = Some d0 → scopes_wf (Scopes (dependency d0))) →
  entry_after k occs cur = Some d →
  o ∈ occurrences_of k occs → s ∈ getScopes o.1 → s ∈ Scopes (dependency d).
Proof.
  revert cur. induction occs as [|o' occs IH]; intros cur Hcur Hd.
  - by intros ?%elem_of_nil.
  - rewrite entry_after_cons in Hd. rewrite occurrences_of_cons.
    assert (∀ d0, (if decide (id o'.1 = k) then Some (merged cur o'.1 o'.2) else cur)
                  = Some d0 → scopes_wf (Scopes (dependency d0))) as Hnext.
    { case_decide; [|done]. intros d0 [= <-].
      destruct cur as [d1|]; cbn; apply appendScopes_wf; eauto. }
    case_decide as Hk; [|by eapply IH].
    intros [Ho|Hin]%elem_of_cons Hs; [subst o|by eapply IH].
    assert (s ∈ Scopes (dependency (merged cur o'.1 o'.2))) as Hs'.
    { assert (s ≠ "") as Hne.
      { intros ->. by apply (scopes_wf_no_empty _ (getScopes_wf o'.1)). }
      destruct cur as [d1|]; cbn; apply appendScopes_elem; eauto. }
    eapply elem_of_prefix; [exact Hs'|].
    eapply entry_after_prefix; [|exact Hd]. by apply Hnext.
Qed.

(** Merging a second time the occurrences an entry already went through
    leaves its scopes as they are. *)
Lemma entry_after_absorb k occs d d' :
  scopes_wf (Scopes (dependency d)) →
  (∀ o s, o ∈ occurrences_of k occs → s ∈ getScopes o.1 → s ∈ Scopes (dependency d)) →
  entry_after k occs (Some d) = Some d' →
  Scopes (dependency d') = Scopes (dependency d).
Proof.
  revert d. induction occs as [|o occs IH]; intros d Hwf Hcov.
  - by intros [= ->].
  - rewrite entry_after_cons. rewrite occurrences_of_cons in Hcov.
    case_decide as Hk; [|by apply IH].
    assert (Scopes (dependency (merged (Some d) o.1 o.2)) = Scopes (dependency d)) as Heq.
    { cbn. apply appendScopes_absorb; [apply Hwf|by apply scopes_wf_no_empty|].
      intros s Hs. right. apply (Hcov o); [by left|done]. }
    intros Hd'. rewrite <- Heq. apply IH; [by rewrite Heq| |done].
    intros o0 s Ho0 Hs. rewrite Heq. apply (Hcov o0); [by right|done].
Qed.

Lemma walk_lookup parseFunc data pathToRoot :
  ∃ occs, ∀ st k,
    dependencies (parseDependencies parseFunc data pathToRoot st).1 !! k
    = entry_after k occs (dependencies st !! k).
Proof.
  destruct (parseDependencies_merges parseFunc data pathToRoot) as (occs & msgs & err & H).
  exists occs. intros st k. rewrite H. cbn. apply appendAll_lookup.
Qed.

(** ** Integrity digests *)

(** C1: along any sequence of occurrences merged into the map, the digest
    kept for an id is the first non-empty one in the order of the merges,
    starting with the digest the map already held; so a digest once recorded
    is neither cleared nor overwritten by later occurrences, whatever digest
    they carry, and the same holds for a whole walk of a tree. *)
Theorem C1_first_nonempty_digest_retained
    (occs : list occurrence) (m : gmap string dependencyInfo) (k : string) :
  integrity_of (appendAll occs m !! k)
  = first_nonempty (integrity_of (m !! k)
                    :: ((fun o => Integrity o.1) <$> occurrences_of k occs))
  ∧ (∀ d, m !! k = Some d → Integrity (lsDependency d) ≠ "" →
       ∃ d', appendAll occs m !! k = Some d' ∧
             Integrity (lsDependency d') = Integrity (lsDependency d))
  ∧ (∀ parseFunc data pathToRoot log d,
       m !! k = Some d → Integrity (lsDependency d) ≠ "" →
       ∃ d', dependencies (parseDependencies parseFunc data pathToRoot (mkWalk m log)).1 !! k
             = Some d' ∧
             Integrity (lsDependency d') = Integrity (lsDependency d)).
Proof.
  assert (∀ occs' d, m !! k = Some d → Integrity (lsDependency d) ≠ "" →
            ∃ d', entry_after k occs' (m !! k) = Some d' ∧
                  Integrity (lsDependency d') = Integrity (lsDependency d)) as Hkeep.
  { intros occs' d Hd Hne. rewrite Hd.
    destruct (entry_after_Some k occs' d) as [d' Hd']. exists d'. split; [done|].
    pose proof (entry_after_integrity k occs' (Some d)) as Hi.
    rewrite Hd' in Hi. cbn in Hi. by rewrite decide_False in Hi. }
  split_and!.
  - rewrite appendAll_lookup. apply entry_after_integrity.
  - intros d Hd Hne. rewrite appendAll_lookup. by apply Hkeep.
  - intros parseFunc data pathToRoot log d Hd Hne.
    destruct (walk_lookup parseFunc data pathToRoot) as [occs' Hw].
    rewrite Hw. cbn. by apply Hkeep.
Qed.

(** ** What a merge leaves alone *)

(** C10: a merge touches the entry of its own id only.  The first occurrence
    of an id puts its own record into the map; a later occurrence of the id
    keeps that record, with its bundled, peer-missing, optional and other
    fields, its id and its checksums, and changes only the digest (when it
    was empty), the scopes (by union) and the list of paths (one more).
    Along any sequence of merges the record kept for an id is the one of the
    first occurrence of that id. *)
Theorem C10_first_record_is_kept
    (m : gmap string dependencyInfo) (dep : npmLsDependency) (pathToRoot : list string) :
  (∀ k, k ≠ id dep → appendDependency m dep pathToRoot !! k = m !! k)
  ∧ (m !! id dep = None →
       appendDependency m dep pathToRoot !! id dep
       = Some {| dependency := {| Id := id dep; Scopes := appendScopes [] (getScopes dep);
                                  RequestedBy := [pathToRoot];
                                  checksum := mkChecksum "" "" "" |};
                 lsDependency := dep |})
  ∧ (∀ d, m !! id dep = Some d →
       ∃ d', appendDependency m dep pathToRoot !! id dep = Some d' ∧
             same_record d d' ∧
             Integrity (lsDependency d')
             = (if decide (Integrity (lsDependency d) = "") then Integrity dep
                else Integrity (lsDependency d)) ∧
             Scopes (dependency d') = appendScopes (Scopes (dependency d)) (getScopes dep) ∧
             RequestedBy (dependency d') = RequestedBy (dependency d) ++ [pathToRoot])
  ∧ (∀ occs k first rest,
       m !! k = None → occurrences_of k occs = first :: rest →
       ∃ d', appendAll occs m !! k = Some d' ∧
             same_record {| dependency := mkDependency k [] [] (mkChecksum "" "" "");
                            lsDependency := first.1 |} d').
Proof.
  split_and!.
  - intros k Hk. by apply appendDependency_lookup_ne.
  - intros Hm. by rewrite appendDependency_lookup, Hm.
  - intros d Hm. rewrite appendDependency_lookup, Hm. eexists. split; [done|].
    split_and!; [apply same_record_merged|done..].
  - intros occs k first rest Hm Hocc. rewrite appendAll_lookup, Hm.
    destruct (entry_after_head k occs first rest Hocc) as (d' & Hd' & Hsame & _).
    exists d'. split; [done|].
    assert (id first.1 = k) as Hid.
    { assert (first ∈ occurrences_of k occs) as Hin by (rewrite Hocc; by left).
      unfold occurrences_of in Hin. apply list_elem_of_In, filter_In in Hin as [_ Hin].
      by apply bool_decide_eq_true in Hin. }
    eapply same_record_trans; [|exact Hsame]. subst k. by repeat split.
Qed.

(** ** Scope labels of the map *)


(** ** Walking a tree twice *)

(** C7: walking a tree into the empty map and then once more into the
    result ends with the same error or success, gives the same ids, and for
    every id the same scopes and checksums and a list of paths twice as
    long. *)
Theorem C7_walking_twice
    (parseFunc : json → Result npmLsDependency) (data : json) (pathToRoot : list string)
    (log : Log) :
  let once := parseDependencies parseFunc data pathToRoot (mkWalk ∅ log) in
  let twice := parseDependencies parseFunc data pathToRoot once.1 in
  twice.2 = once.2
  ∧ dom (dependencies twice.1) = dom (dependencies once.1)
  ∧ ∀ k d1, dependencies once.1 !! k = Some d1 →
      ∃ d2, dependencies twice.1 !! k = Some d2 ∧
            Scopes (dependency d2) = Scopes (dependency d1) ∧
            checksum (dependency d2) = checksum (dependency d1) ∧
            length (RequestedBy (dependency d2)) = 2 * length (RequestedBy (dependency d1)).
Proof.
  destruct (parseDependencies_merges parseFunc data pathToRoot) as (occs & msgs & err & H).
  cbv zeta. rewrite !H. cbn [fst snd dependencies].
  split_and!; [done| |].
  - apply set_eq. intros k. rewrite !elem_of_dom, !appendAll_lookup, lookup_empty.
    destruct (entry_after k occs None) as [d|] eqn:Hk.
    + split; [eauto|]. intros _. apply entry_after_Some.
    + by rewrite Hk.
  - intros k d1. rewrite !appendAll_lookup, lookup_empty. intros Hd1. rewrite Hd1.
    destruct (occurrences_of k occs) as [|o rest] eqn:Hocc.
    { apply entry_after_None in Hocc. congruence. }
    destruct (entry_after_head k occs o rest Hocc) as (d1' & Hd1' & _ & Hlen1).
    assert (d1' = d1) as -> by congruence.
    destruct (entry_after_same k occs d1) as (d2 & Hd2 & Hsame & Hlen2).
    exists d2. split_and!; [done| |apply Hsame|lia].
    assert (scopes_wf (Scopes (dependency d1))) as Hwf.
    { eapply entry_after_scopes_wf; [|exact Hd1]. done. }
    eapply entry_after_absorb; [done| |exact Hd2].
    intros o0 s Ho0 Hs. eapply entry_after_covers; [|exact Hd1|exact Ho0|exact Hs]. done.
Qed.

(** ** Scope groups *)

(** C8: for a record whose name begins with [@], [getScopes] gives the
    dev/prod label followed by the first segment of the name when the name
    has more than two segments between slashes, and the dev/prod label alone
    when it has two or fewer. *)
Theorem C8_scope_group_extraction (nld : npmLsDependency) :
  strings.HasPrefix (Name nld) "@" = true →
  ((2 < length (strings.Split (Name nld) "/"%char))%nat →
     getScopes nld = [if Dev nld then "dev" else "prod";
                      hd "" (strings.Split (Name nld) "/"%char)]
     ∧ scope_group (hd "" (strings.Split (Name nld) "/"%char)))
  ∧ ((length (strings.Split (Name nld) "/"%char) <= 2)%nat →
     getScopes nld = [if Dev nld then "dev" else "prod"]).
Proof.
  intros Hp. unfold getScopes. rewrite Hp. split.
  - intros Hlen. apply Nat.ltb_lt in Hlen. rewrite Hlen.
    split; [by destruct (Dev nld)|by apply Split_hd_scoped].
  - intros Hlen. apply Nat.ltb_ge in Hlen. rewrite Hlen. by destruct (Dev nld).
Qed.

(** ** The legacy record *)

(** C9: the record made from a legacy one is optional when the top-level
    flag or the inner flag of the legacy record is set, and has the name,
    version, digest, bundled, development, missing and peer-missing fields of
    the legacy record; the legacy parser returns the record made that way
    from what [json.Unmarshal] decoded. *)
Theorem C9_legacy_record_conversion (lnld : legacyNpmLsDependency) :
  Optional (toNpmLsDependency lnld) = (lOptional lnld || lInnerOptional lnld)%bool
  ∧ Name (toNpmLsDependency lnld) = lName lnld
  ∧ Version (toNpmLsDependency lnld) = lVersion lnld
  ∧ Integrity (toNpmLsDependency lnld) = lIntegrity lnld
  ∧ InBundle (toNpmLsDependency lnld) = lInBundle lnld
  ∧ Dev (toNpmLsDependency lnld) = lDev lnld
  ∧ Missing (toNpmLsDependency lnld) = lMissing lnld
  ∧ PeerMissing (toNpmLsDependency lnld) = lPeerMissing lnld
  ∧ ∀ data,
      Unmarshal set_legacy_member zero_legacyNpmLsDependency data = Ok (Some lnld) →
      legacyNpmLsDependencyParser data = Ok (toNpmLsDependency lnld).
Proof.
  split_and!; try reflexivity.
  intros data Hdec. unfold legacyNpmLsDependencyParser. by rewrite Hdec.
Qed.

(** ** Version prefixes of the manifest *)

Lemma TrimPrefix_byte c s :
  strings.TrimPrefix s (String c EmptyString)
  = match s with
    | String a rest => if Ascii.eqb c a then rest else s
    | EmptyString => s
    end.
Proof.
  unfold strings.TrimPrefix. destruct s as [|a rest]; [done|]. cbn.
  destruct (Ascii.eqb c a); [|done]. by destruct rest.
Qed.

Lemma removeVersionPrefixes_strip packageInfo :
  pVersion (removeVersionPrefixes packageInfo) = strip_v_then_eq (pVersion packageInfo).
Proof.
  unfold removeVersionPrefixes. cbn [pVersion]. rewrite !TrimPrefix_byte.
  destruct (pVersion packageInfo) as [|a rest]; [done|].
  destruct (Ascii.eqb_spec "v"%char a) as [<-|Hv].
  - destruct rest as [|b rest]; [done|].
    destruct (Ascii.eqb_spec "="%char b) as [<-|He]; [done|].
    cbn. destruct b as [[] [] [] [] [] [] [] []]; try done.
  - destruct (Ascii.eqb_spec "="%char a) as [<-|He]; [done|].
    cbn. destruct a as [[] [] [] [] [] [] [] []]; try done.
Qed.

Lemma splitScopeFromName_version packageInfo :
  pVersion (splitScopeFromName packageInfo) = pVersion packageInfo.
Proof. unfold splitScopeFromName. by destruct (_ && _)%bool. Qed.

(** C5, as the code has it: the version of the package read from a
    manifest is the version the manifest gives, without one leading [v] and
    then without one leading [=], when the version of npm compares below
    7.0.0; it is the version the manifest gives when npm is not below 7.0.0
    or no version of npm is given.  A leading [=] in front of a [v] is
    removed and the [v] stays. *)
Theorem C5_version_prefix_stripping
    (w : World) (data : string) (npmVersion : option string) (r : PackageInfo) :
  ReadPackageInfo w data npmVersion = Ok r →
  ∃ doc decoded,
    json_Unmarshal w data = Ok doc ∧
    Unmarshal set_package_member zero_PackageInfo doc = Ok decoded ∧
    pVersion r
    = match npmVersion with
      | Some v =>
          if Z.ltb 0 (Compare w v "7.0.0")
          then strip_v_then_eq (pVersion (default zero_PackageInfo decoded))
          else pVersion (default zero_PackageInfo decoded)
      | None => pVersion (default zero_PackageInfo decoded)
      end.
Proof.
  unfold ReadPackageInfo.
  destruct (json_Unmarshal w data) as [doc|e] eqn:Hdoc; [|done].
  destruct (Unmarshal set_package_member zero_PackageInfo doc) as [decoded|e] eqn:Hdec;
    [|done].
  intros [= <-]. exists doc, decoded. split_and!; [done..|].
  rewrite splitScopeFromName_version.
  destruct npmVersion as [v|]; [|done].
  destruct (Z.ltb 0 _); [|done]. apply removeVersionPrefixes_strip.
Qed.

(** ** The nodes of the walk *)

Lemma Get_error data key e : Get data key = Err e → e = KeyPathNotFoundError.
Proof.
  destruct data; cbn; try (by intros [= <-]). apply get_member_error.
Qed.

(** C4, as the code has it: the walk calls [visit] on the members of an
    object one after the other and stops at the first error.  On a node
    whose body is [{}] the callback logs and leaves the map alone; on a node
    whose record has an empty version it does the same when the missing flag
    is set or the problems list is not [nil], and fails when the flag is
    unset and the list is [nil]; a node that cannot be parsed fails; any
    other node is merged into the map and the walk goes on in its
    [dependencies] member, if it has one, under the path extended by the id
    of the node. *)
Theorem C4_node_cases
    (parseFunc : json → Result npmLsDependency) (pathToRoot : list string)
    (key : string) (value : json) (st : Walk) :
  (∀ members,
     parseDependencies parseFunc (JObject ((key, value) :: members)) pathToRoot st
     = match visit parseFunc pathToRoot key value st with
       | (st', Some e) => (st', Some e)
       | (st', None) => parseDependencies parseFunc (JObject members) pathToRoot st'
       end)
  ∧ (bytes_of value = "{}" →
     visit parseFunc pathToRoot key value st
     = (mkWalk (dependencies st) (walk_log st ++ [mkLog DEBUG (missing_optional_msg key)]),
        None))
  ∧ (∀ dep, bytes_of value ≠ "{}" → parseFunc value = Ok dep → Version dep = "" →
       Missing dep = true ∨ Problems dep ≠ None →
       visit parseFunc pathToRoot key value st
       = (mkWalk (dependencies st) (walk_log st ++ [mkLog DEBUG (missing_peer_msg key)]),
          None))
  ∧ (∀ dep, bytes_of value ≠ "{}" → parseFunc value = Ok dep → Version dep = "" →
       Missing dep = false → Problems dep = None →
       visit parseFunc pathToRoot key value st
       = (st, Some (ErrorString ("failed to parse '" +:+ bytes_of value
                                 +:+ "' from npm ls output."))))
  ∧ (∀ e, bytes_of value ≠ "{}" → parseFunc value = Err e →
       visit parseFunc pathToRoot key value st = (st, Some e))
  ∧ (∀ dep, bytes_of value ≠ "{}" → parseFunc value = Ok dep → Version dep ≠ "" →
       visit parseFunc pathToRoot key value st
       = match Get value "dependencies" with
         | Ok transitive =>
             if Nat.ltb 0 (String.length (bytes_of transitive)) then
               parseDependencies parseFunc transitive (id dep :: pathToRoot)
                 (mkWalk (appendDependency (dependencies st) dep pathToRoot) (walk_log st))
             else (mkWalk (appendDependency (dependencies st) dep pathToRoot) (walk_log st),
                   None)
         | Err _ =>
             (mkWalk (appendDependency (dependencies st) dep pathToRoot) (walk_log st), None)
         end).
Proof.
  split_and!.
  - intros members. apply parseDependencies_cons.
  - intros Hv. unfold visit. by rewrite decide_True.
  - intros dep Hv Hp Hver Hskip. unfold visit.
    rewrite decide_False, Hp, decide_True by done.
    destruct Hskip as [->|Hpr]; [done|].
    destruct (Problems dep); [|done]. by rewrite orb_true_r.
  - intros dep Hv Hp Hver Hm Hpr. unfold visit.
    rewrite decide_False, Hp, decide_True by done. by rewrite Hm, Hpr.
  - intros e Hv Hp. unfold visit. by rewrite decide_False, Hp.
  - intros dep Hv Hp Hver. unfold visit.
    rewrite decide_False, Hp, decide_False by done. cbv zeta.
    destruct (Get value "dependencies") as [t|e] eqn:Hget; [done|].
    apply Get_error in Hget as ->. by rewrite decide_True.
Qed.

(** ** A failing listing *)


(** ** The assembler *)

(** Closes a goal on one bucket once the destination is known. *)
Ltac route_done dest :=
  destruct dest; cbn; case_decide; try done; try congruence;
  rewrite ?app_nil_r, ?fmap_app; done.

Section Assembler.
Variable w : World.
Variable calculateChecksums : bool.
Variable cacache : string.

Lemma bucket_classify b dep dest :
  bucket (classify w calculateChecksums cacache b dep) dest
  = bucket b dest
    ++ (if decide (dest = destination w calculateChecksums cacache dep)
        then [Id (dependency dep)] else []).
Proof.
  unfold classify, destination. cbv zeta.
  destruct (bool_decide (Integrity (lsDependency dep) = "") && InBundle (lsDependency dep))%bool;
    [route_done dest|].
  destruct (bool_decide (Integrity (lsDependency dep) = "")
            && not_nil (PeerMissing (lsDependency dep)))%bool; [route_done dest|].
  destruct calculateChecksums; cbn [andb]; [|route_done dest].
  destruct (calculateChecksum _ _ _ _ _) as [[[md5 sha1] sha256] [e|]]; cbn [snd not_nil];
    [|route_done dest].
  destruct (Optional (lsDependency dep)); route_done dest.
Qed.

Lemma bucket_fold entries b dest :
  bucket (fold_left (classify w calculateChecksums cacache) entries b) dest
  = bucket b dest
    ++ ((fun d => Id (dependency d))
          <$> filter (fun d => destination w calculateChecksums cacache d = dest) entries).
Proof.
  revert b. induction entries as [|dep entries IH]; intros b; cbn [fold_left].
  - by rewrite app_nil_r.
  - rewrite IH, bucket_classify, <- app_assoc. f_equal.
    rewrite filter_cons. case_decide as H1; case_decide as H2; try done; congruence.
Qed.

Lemma bucket_partition_map m log dest :
  bucket (partition_map w calculateChecksums cacache m log) dest
  = (fun d => Id (dependency d))
      <$> filter (fun d => destination w calculateChecksums cacache d = dest) (range_order w m).
Proof. unfold partition_map. rewrite bucket_fold. by destruct dest. Qed.

End Assembler.

(** C2: the loop of the assembler sends every entry of the map to the
    destination the rules give, checked top to bottom: each bucket holds,
    in the order of the loop, the ids of the entries whose destination it
    is, and the final list the entries whose destination it is.  The id of
    an entry is in one destination only, so the four buckets and the final
    list are pairwise disjoint. *)
Theorem C2_one_destination_per_entry
    (w : World) (calculateChecksums : bool) (cacache : string)
    (m : gmap string dependencyInfo) (log : Log) :
  ids_are_keys m →
  range_order w m ≡ₚ (map_to_list m).*2 →
  (∀ dest,
     bucket (partition_map w calculateChecksums cacache m log) dest
     = (fun d => Id (dependency d))
         <$> filter (fun d => destination w calculateChecksums cacache d = dest)
               (range_order w m))
  ∧ (∀ k d, m !! k = Some d →
     ∀ dest, k ∈ bucket (partition_map w calculateChecksums cacache m log) dest
             ↔ dest = destination w calculateChecksums cacache d)
  ∧ (∀ k dest1 dest2,
     k ∈ bucket (partition_map w calculateChecksums cacache m log) dest1 →
     k ∈ bucket (partition_map w calculateChecksums cacache m log) dest2 →
     dest1 = dest2).
Proof.
  intros Hids Hperm.
  assert (∀ d, d ∈ range_order w m ↔ ∃ k, m !! k = Some d) as Hin.
  { intros d. rewrite Hperm, list_elem_of_fmap. split.
    - intros ([k d'] & -> & Hkd). exists k. by apply elem_of_map_to_list.
    - intros [k Hk]. exists (k, d). split; [done|]. by apply elem_of_map_to_list. }
  assert (∀ k dest, k ∈ bucket (partition_map w calculateChecksums cacache m log) dest ↔
            ∃ d, m !! k = Some d ∧ destination w calculateChecksums cacache d = dest) as Hb.
  { intros k dest. rewrite bucket_partition_map, list_elem_of_fmap. split.
    - intros (d & -> & [Hdest Hd]%list_elem_of_filter).
      apply Hin in Hd as [k Hk]. exists d. split; [|done].
      by rewrite (Hids k d Hk).
    - intros (d & Hk & Hdest). exists d. split; [by rewrite (Hids k d Hk)|].
      apply list_elem_of_filter. split; [done|]. apply Hin. eauto. }
  split_and!.
  - intros dest. apply bucket_partition_map.
  - intros k d Hk dest. rewrite Hb. split.
    + intros (d' & Hk' & <-). congruence.
    + intros ->. eauto.
  - intros k dest1 dest2 (d1 & Hk1 & <-)%Hb (d2 & Hk2 & <-)%Hb. congruence.
Qed.

(** ** The ids of the map are its keys *)

Lemma entry_after_id k occs cur d :
  (∀ d0, cur = Some d0 → Id (dependency d0) = k) →
  entry_after k occs cur = Some d → Id (dependency d) = k.
Proof.
  revert cur. induction occs as [|o occs IH]; intros cur Hcur.
  - intros ?. by apply Hcur.
  - rewrite entry_after_cons. apply IH. case_decide as Hk; [|done].
    intros d0 [= <-]. destruct cur as [d1|]; cbn; [by apply Hcur|done].
Qed.

Lemma parseDependencies_ids_are_keys parseFunc data pathToRoot st :
  ids_are_keys (dependencies st) →
  ids_are_keys (dependencies (parseDependencies parseFunc data pathToRoot st).1).
Proof.
  intros Hids k d. destruct (walk_lookup parseFunc data pathToRoot) as [occs Hw].
  rewrite Hw. apply entry_after_id. intros d0 Hd0. by apply Hids.
Qed.

Lemma each_member_invariant {S : Type} (P : S → Prop)
    (callback : string → json → S → S * option error) members st :
  (∀ key value st, P st → P (callback key value st).1) →
  P st → P (each_member callback members st).1.
Proof.
  intros Hcb. revert st. induction members as [|[key value] members IH]; intros st Hst; [done|].
  cbn [each_member]. pose proof (Hcb key value st Hst) as Hnext.
  destruct (callback key value st) as [st' [e|]]; [done|]. by apply IH.
Qed.

Lemma collect_ids_are_keys w executablePath moduleId data errData log m err log' :
  collect w executablePath moduleId data errData log = (Ok (m, err), log') →
  ids_are_keys m.
Proof.
  unfold collect, bind.
  destruct (when _ _ log) as [[[]|e] log1]; [|done].
  destruct (GetNpmVersion w executablePath log1) as [[npmVersion|e] log2]; [|done].
  destruct (document w data) as [doc|e].
  2:{ intros [= <- _ _]. by intros k d ?%lookup_empty_Some. }
  destruct (ObjectEach doc _ _) as [st err'] eqn:Hwalk. intros [= <- _ _].
  change st with (st, err').1. rewrite <- Hwalk.
  destruct doc as [| | | | |members];
    try (cbn [ObjectEach fst dependencies]; by intros k d ?%lookup_empty_Some).
  cbn [ObjectEach].
  apply (each_member_invariant (fun st => ids_are_keys (dependencies st))).
  - intros key value st0 Hst0. case_decide; [|done].
    by apply parseDependencies_ids_are_keys.
  - cbn. by intros k d ?%lookup_empty_Some.
Qed.

(** The map [CalculateDependenciesMap] returns has every entry under its
    own id. *)
Lemma CalculateDependenciesMap_ids_are_keys w executablePath srcPath moduleId npmArgs
    log m err log' :
  CalculateDependenciesMap w executablePath srcPath moduleId npmArgs log
  = (Ok (m, err), log') →
  ids_are_keys m.
Proof.
  unfold CalculateDependenciesMap. unfold bind at 1.
  destruct (RunNpmCmd _ _ _ _ _ _) as [[[[data errData] e]|?] log1]; [|done].
  unfold bind at 1.
  match goal with |- context [match ?c log1 with _ => _ end] => destruct (c log1) as [[[]|?] log2] end;
    [|done].
  apply collect_ids_are_keys.
Qed.

(** * Instances *)

(** The end-to-end scenario: one entry for [shared:1.0.0], requested by
    both paths, with the scopes of both occurrences and the digest of the
    second. *)
Example end_to_end_scenario :
  dependencies (parseDependencies npmLsDependencyParser Sample.tree ["pkgA"] (mkWalk ∅ [])).1
    !! "shared:1.0.0"
  = Some {| dependency :=
              {| Id := "shared:1.0.0"; Scopes := ["prod"; "dev"];
                 RequestedBy := [["left:1.0.0"; "pkgA"]; ["right:2.0.0"; "pkgA"]];
                 checksum := mkChecksum "" "" "" |};
            lsDependency :=
              mkNpmLsDependency "shared" "1.0.0" "sha512-x" false false false false None None |}.
Proof. vm_compute. reflexivity. Qed.

Lemma C1_witness :
  integrity_of
    (appendAll
       [(mkNpmLsDependency "shared" "1.0.0" "" false false false false None None, ["left"]);
        (mkNpmLsDependency "shared" "1.0.0" "sha512-x" false true false false None None, ["right"]);
        (mkNpmLsDependency "other" "2.0.0" "sha512-o" false true false false None None, ["right"]);
        (mkNpmLsDependency "shared" "1.0.0" "sha512-y" false true false false None None, ["far"]);
        (mkNpmLsDependency "shared" "1.0.0" "" false true false false None None, ["last"])]
       ∅ !! "shared:1.0.0")
  = "sha512-x".
Proof.
  etrans; [apply (proj1 (C1_first_nonempty_digest_retained _ _ _))|]. reflexivity.
Defined.

Lemma C10_witness :
  ∃ d', appendDependency Sample.after_first Sample.later_occurrence ["right"]
        !! "shared:1.0.0" = Some d' ∧
        InBundle (lsDependency d') = true ∧ Optional (lsDependency d') = false ∧
        PeerMissing (lsDependency d') = None ∧ Integrity (lsDependency d') = "sha512-x".
Proof.
  assert (Sample.after_first !! id Sample.later_occurrence
          = Some {| dependency := mkDependency "shared:1.0.0" ["prod"] [["left"]]
                                    (mkChecksum "" "" "");
                    lsDependency := Sample.first_occurrence |}) as Hfirst.
  { vm_compute. reflexivity. }
  destruct (proj1 (proj2 (proj2 (C10_first_record_is_kept
              Sample.after_first Sample.later_occurrence ["right"]))) _ Hfirst)
    as (d' & Hd' & Hsame & Hint & _).
  exists d'. split; [exact Hd'|]. unfold same_record in Hsame. destruct_and!.
  split_and!; first [done | rewrite Hint; reflexivity].
Defined.



Lemma C7_witness :
  ∃ d2, dependencies
          (parseDependencies npmLsDependencyParser Sample.tree ["pkgA"]
             (parseDependencies npmLsDependencyParser Sample.tree ["pkgA"] (mkWalk ∅ [])).1).1
        !! "shared:1.0.0" = Some d2 ∧
        Scopes (dependency d2) = ["prod"; "dev"] ∧
        length (RequestedBy (dependency d2)) = 4.
Proof.
  destruct (C7_walking_twice npmLsDependencyParser Sample.tree ["pkgA"] []) as (_ & _ & H).
  destruct (H "shared:1.0.0" _ end_to_end_scenario) as (d2 & Hd2 & Hs & _ & Hl).
  exists d2. split_and!; [exact Hd2|exact Hs|exact Hl].
Defined.

Lemma C2_witness :
  ids_are_keys Sample.assorted
  ∧ range_order (Sample.world false true "8.1.0") Sample.assorted
    ≡ₚ (map_to_list Sample.assorted).*2
  ∧ (∀ dest,
       "b:1" ∈ bucket (partition_map (Sample.world false true "8.1.0") true "/cache"
                         Sample.assorted []) dest
       ↔ dest = MissingBundled)
  ∧ (∀ dest,
       "o:1" ∈ bucket (partition_map (Sample.world false true "8.1.0") true "/cache"
                         Sample.assorted []) dest
       ↔ dest = MissingOptional).
Proof.
  assert (ids_are_keys Sample.assorted) as Hids.
  { intros k d. unfold Sample.assorted. rewrite appendAll_lookup, lookup_empty.
    by apply entry_after_id. }
  assert (range_order (Sample.world false true "8.1.0") Sample.assorted
          ≡ₚ (map_to_list Sample.assorted).*2) as Hperm by reflexivity.
  destruct (C2_one_destination_per_entry (Sample.world false true "8.1.0") true "/cache"
              Sample.assorted [] Hids Hperm) as (_ & Hroute & _).
  split_and!; [exact Hids|exact Hperm| |].
  - exact (Hroute "b:1"
             {| dependency := mkDependency "b:1" ["prod"] [["pkgA"]] (mkChecksum "" "" "");
                lsDependency := mkNpmLsDependency "b" "1" "" true false false false None None |}
             ltac:(vm_compute; reflexivity)).
  - exact (Hroute "o:1"
             {| dependency := mkDependency "o:1" ["prod"] [["pkgA"]] (mkChecksum "" "" "");
                lsDependency :=
                  mkNpmLsDependency "o" "1" "sha512-o" false false true false None None |}
             ltac:(vm_compute; reflexivity)).
Defined.

(** A node without a version, with the missing flag unset and a problems
    list that is empty but not [nil], is skipped, not refused. *)
Lemma C4_counterexample :
  ¬ (∀ (parseFunc : json → Result npmLsDependency) pathToRoot key value st dep,
       bytes_of value ≠ "{}" → parseFunc value = Ok dep → Version dep = "" →
       Missing dep = false → ¬ problems_nonempty dep →
       (visit parseFunc pathToRoot key value st).2 ≠ None).
Proof.
  intros H.
  apply (H npmLsDependencyParser ["pkgA"] "peer" Sample.empty_problems (mkWalk ∅ [])
           (mkNpmLsDependency "" "" "" false false false false (Some []) None));
    try reflexivity.
  - discriminate.
  - intros (p & ps & Hp). discriminate.
Qed.

Lemma C4_witness :
  visit npmLsDependencyParser ["pkgA"] "peer" Sample.empty_problems (mkWalk ∅ [])
  = (mkWalk ∅ [mkLog DEBUG "peer is missing, this may be the result of an peer dependency."],
     None)
  ∧ visit npmLsDependencyParser ["pkgA"] "absent" (JObject []) (mkWalk ∅ [])
    = (mkWalk ∅ [mkLog DEBUG
                   "absent is missing. This may be the result of an optional dependency."],
       None)
  ∧ visit npmLsDependencyParser ["pkgA"] "bare" (JObject [("name", JString "bare")])
      (mkWalk ∅ [])
    = (mkWalk ∅ [], Some (ErrorString ("failed to parse '{" +:+ quote +:+ "name" +:+ quote
                                       +:+ ":" +:+ quote +:+ "bare" +:+ quote
                                       +:+ "}' from npm ls output."))).
Proof.
  destruct (C4_node_cases npmLsDependencyParser ["pkgA"] "peer" Sample.empty_problems
              (mkWalk ∅ [])) as (_ & _ & Hskip & _).
  destruct (C4_node_cases npmLsDependencyParser ["pkgA"] "absent" (JObject [])
              (mkWalk ∅ [])) as (_ & Habsent & _).
  destruct (C4_node_cases npmLsDependencyParser ["pkgA"] "bare"
              (JObject [("name", JString "bare")]) (mkWalk ∅ [])) as (_ & _ & _ & Hfail & _).
  split_and!.
  - apply (Hskip (mkNpmLsDependency "" "" "" false false false false (Some []) None));
      [discriminate|reflexivity|reflexivity|right; discriminate].
  - apply Habsent. reflexivity.
  - apply (Hfail (mkNpmLsDependency "bare" "" "" false false false false None None));
      [discriminate|reflexivity..].
Defined.

(** Under npm 6 the version [=v1.2.3] of a manifest becomes [v1.2.3], not
    [1.2.3]. *)
Lemma C5_counterexample :
  ¬ (∀ (w : World) data v r doc,
       (0 < Compare w v "7.0.0")%Z →
       json_Unmarshal w data = Ok doc → Get doc "version" = Ok (JString "=v1.2.3") →
       ReadPackageInfo w data (Some v) = Ok r →
       pVersion r = "1.2.3").
Proof.
  intros H.
  specialize (H (Sample.world false true "6.14.8") "manifest" "6.14.8"
                (mkPackageInfo "pkgA" "v1.2.3" "@org") Sample.manifest).
  discriminate H; reflexivity.
Qed.

Lemma C5_witness :
  ReadPackageInfo (Sample.world false true "6.14.8") "manifest" (Some "6.14.8")
  = Ok (mkPackageInfo "pkgA" "v1.2.3" "@org")
  ∧ ∃ doc decoded,
      json_Unmarshal (Sample.world false true "6.14.8") "manifest" = Ok doc ∧
      Unmarshal set_package_member zero_PackageInfo doc = Ok decoded ∧
      "v1.2.3" = strip_v_then_eq (pVersion (default zero_PackageInfo decoded)).
Proof.
  assert (ReadPackageInfo (Sample.world false true "6.14.8") "manifest" (Some "6.14.8")
          = Ok (mkPackageInfo "pkgA" "v1.2.3" "@org")) as Hread by reflexivity.
  split; [exact Hread|].
  exact (C5_version_prefix_stripping _ _ _ _ Hread).
Defined.


Lemma C8_witness :
  strings.HasPrefix "@org/sub/pkg" "@" = true
  ∧ getScopes (mkNpmLsDependency "@org/sub/pkg" "1.0.0" "" false false false false None None)
    = ["prod"; "@org"]
  ∧ getScopes (mkNpmLsDependency "@org/pkg" "1.0.0" "" false true false false None None)
    = ["dev"].
Proof.
  split_and!; [reflexivity| |].
  - apply (C8_scope_group_extraction
             (mkNpmLsDependency "@org/sub/pkg" "1.0.0" "" false false false false None None));
      [reflexivity|]. cbn. lia.
  - apply (C8_scope_group_extraction
             (mkNpmLsDependency "@org/pkg" "1.0.0" "" false true false false None None));
      [reflexivity|]. cbn. lia.
Defined.

Lemma C9_witness :
  legacyNpmLsDependencyParser
    (JObject [("name", JString "a"); ("version", JString "1"); ("_optional", JBool true);
              ("_integrity", JString "sha1-x"); ("peerMissing", JBool true)])
  = Ok (mkNpmLsDependency "a" "1" "sha1-x" false false true false None (Some (JBool true))).
Proof.
  apply (C9_legacy_record_conversion
           (mkLegacyNpmLsDependency "a" "1" false "sha1-x" false false true false
              (Some (JBool true)))).
  reflexivity.
Defined.

(** ** Further examples *)

Example getScopes_plain :
  getScopes (mkNpmLsDependency "@org/sub/pkg" "1" "" false false false false None None)
  = ["prod"; "@org"].
Proof. reflexivity. Qed.

Example appendScopes_ex : appendScopes ["dev"; "@a"] ["prod"; "@a"; ""; "dev"] = ["dev"; "@a"; "prod"].
Proof. vm_compute. reflexivity. Qed.

(** * Further properties *)

(** ** Strings *)

Lemma append_cons x (a b : string) : String x a +:+ b = String x (a +:+ b).
Proof. reflexivity. Qed.

Lemma append_assoc (a b c : string) : (a +:+ b) +:+ c = a +:+ b +:+ c.
Proof. induction a as [|x a IH]; [done|]. by rewrite !append_cons, IH. Qed.

Lemma append_nil_r (a : string) : a +:+ "" = a.
Proof. induction a as [|x a IH]; [done|]. by rewrite append_cons, IH. Qed.

Lemma Split_not_nil s sep : strings.Split s sep ≠ [].
Proof.
  destruct s as [|c t]; [done|]. cbn [strings.Split].
  destruct (Ascii.eqb c sep); [done|]. by destruct (strings.Split t sep).
Qed.

Lemma Join_cons_byte c piece pieces sep :
  strings.Join (String c piece :: pieces) sep = String c (strings.Join (piece :: pieces) sep).
Proof. by destruct pieces. Qed.

Lemma Join_cons e rest sep :
  rest ≠ [] → strings.Join (e :: rest) sep = e +:+ sep +:+ strings.Join rest sep.
Proof. by destruct rest. Qed.

Lemma Join_Split s sep :
  strings.Join (strings.Split s sep) (String sep EmptyString) = s.
Proof.
  induction s as [|c t IH]; [done|]. cbn [strings.Split].
  destruct (Ascii.eqb_spec c sep) as [->|Hc].
  - rewrite Join_cons by apply Split_not_nil. by rewrite IH.
  - pose proof (Split_not_nil t sep) as Hne.
    destruct (strings.Split t sep) as [|piece pieces]; [done|].
    by rewrite Join_cons_byte, IH.
Qed.

Lemma Split_no_sep s sep : strings.Contains s sep = false → strings.Split s sep = [s].
Proof.
  induction s as [|c t IH]; [done|]. cbn [strings.Contains strings.Split].
  destruct (Ascii.eqb c sep); [done|]. intros H. by rewrite (IH H).
Qed.

Lemma Split_app_sep a b sep :
  strings.Contains a sep = false →
  strings.Split (a +:+ String sep b) sep = a :: strings.Split b sep.
Proof.
  induction a as [|c a IH].
  - intros _. change ("" +:+ String sep b) with (String sep b).
    cbn [strings.Split]. by rewrite Ascii.eqb_refl.
  - rewrite append_cons. cbn [strings.Contains strings.Split].
    destruct (Ascii.eqb c sep) eqn:Hc; [done|]. intros H. by rewrite (IH H).
Qed.

Lemma Split_contains s sep :
  strings.Contains s sep = true → (2 <= length (strings.Split s sep))%nat.
Proof.
  induction s as [|c t IH]; [done|]. cbn [strings.Contains strings.Split].
  destruct (Ascii.eqb c sep).
  - intros _. pose proof (Split_not_nil t sep).
    destruct (strings.Split t sep); [done|]. cbn. lia.
  - intros H. specialize (IH H). destruct (strings.Split t sep); cbn in *; lia.
Qed.

(** ** Merging scope lists *)



(** X2: merging scope lists one after the other is merging their
    concatenation, and merging the same labels again changes nothing. *)
Theorem appendScopes_composes (a b c : list string) :
  appendScopes (appendScopes a b) c = appendScopes a (b ++ c)
  ∧ appendScopes (appendScopes a b) b = appendScopes a b
  ∧ appendScopes (appendScopes a b) [] = appendScopes a b.
Proof.
  assert (NoDup (appendScopes a b)) as Hnd by apply appendScopes_NoDup.
  assert ("" ∉ appendScopes a b) as Hne.
  { rewrite appendScopes_elem. by intros [_ ?]. }
  split_and!.
  - rewrite (appendScopes_good _ c Hnd Hne).
    rewrite (appendScopes_union a (b ++ c)), (appendScopes_union a b).
    by rewrite app_assoc, !union_in_order_app.
  - apply appendScopes_absorb; [done..|]. intros s Hs.
    destruct (decide (s = "")) as [?|Hs']; [by left|]. right.
    apply appendScopes_elem. eauto.
  - apply appendScopes_absorb; [done..|]. by intros s ?%elem_of_nil.
Qed.

(** ** The id of a record *)

Lemma append_nil_l (a : string) : "" +:+ a = a.
Proof. reflexivity. Qed.

Lemma id_parts_inj n1 v1 n2 v2 :
  strings.Contains n1 ":"%char = false → strings.Contains n2 ":"%char = false →
  n1 +:+ String ":" v1 = n2 +:+ String ":" v2 → n1 = n2 ∧ v1 = v2.
Proof.
  revert n2. induction n1 as [|c n1 IH]; intros [|c2 n2]; cbn [strings.Contains];
    rewrite ?append_cons, ?append_nil_l.
  - intros _ _. by intros [= ->].
  - intros _. destruct (Ascii.eqb_spec c2 ":"%char) as [->|Hc]; [done|].
    intros _. intros [= ? _]. congruence.
  - destruct (Ascii.eqb_spec c ":"%char) as [->|Hc]; [done|].
    intros _ _. intros [= ? _]. congruence.
  - destruct (Ascii.eqb_spec c ":"%char) as [->|Hc]; [done|].
    destruct (Ascii.eqb_spec c2 ":"%char) as [->|Hc2]; [done|].
    intros H1 H2. intros [= -> Heq].
    destruct (IH n2 H1 H2 Heq) as [-> ->]. done.
Qed.

(** X3: two records whose names hold no colon have the same id only if
    they have the same name and the same version. *)
Theorem id_injective_without_colon (nld1 nld2 : npmLsDependency) :
  strings.Contains (Name nld1) ":"%char = false →
  strings.Contains (Name nld2) ":"%char = false →
  id nld1 = id nld2 →
  Name nld1 = Name nld2 ∧ Version nld1 = Version nld2.
Proof. unfold id. apply id_parts_inj. Qed.

(** X4: the scopes of a record start with [dev] or [prod] according to its
    development flag, have one or two labels, no duplicate and no empty
    label, and are that one label alone when the name does not begin with
    [@]. *)
Theorem getScopes_shape (nld : npmLsDependency) :
  hd "" (getScopes nld) = (if Dev nld then "dev" else "prod")
  ∧ (1 <= length (getScopes nld) <= 2)%nat
  ∧ NoDup (getScopes nld)
  ∧ ("" ∉ getScopes nld)
  ∧ (strings.HasPrefix (Name nld) "@" = false →
     getScopes nld = [if Dev nld then "dev" else "prod"]).
Proof.
  split; [|split; [|split; [|split]]].
  - destruct (getScopes_cases nld) as [->|(g & -> & _)]; done.
  - destruct (getScopes_cases nld) as [->|(g & -> & _)]; cbn; lia.
  - apply getScopes_wf.
  - apply scopes_wf_no_empty, getScopes_wf.
  - intros Hp. unfold getScopes. rewrite Hp. by destruct (Dev nld).
Qed.

(** ** The identity of a package *)

Lemma HasPrefix_empty s : strings.HasPrefix s "" = true.
Proof. by destruct s. Qed.

(** X5: for a manifest without a scope of its own whose name has at most
    one slash, splitting the scope off the name loses nothing: the full name
    of the result is the name of the manifest. *)
Theorem FullName_restores_name (packageInfo : PackageInfo) :
  Scope packageInfo = "" →
  (length (strings.Split (pName packageInfo) "/"%char) <= 2)%nat →
  FullName (splitScopeFromName packageInfo) = pName packageInfo.
Proof.
  intros Hscope Hlen. unfold splitScopeFromName.
  destruct (strings.HasPrefix (pName packageInfo) "@") eqn:Hp; cbn [andb].
  2:{ unfold FullName. by rewrite Hscope, decide_True. }
  destruct (strings.Contains (pName packageInfo) "/") eqn:Hc.
  2:{ unfold FullName. by rewrite Hscope, decide_True. }
  pose proof (Split_contains _ _ Hc) as Hlen'.
  pose proof (Join_Split (pName packageInfo) "/"%char) as Hjoin.
  pose proof (Split_hd_scoped _ Hp) as Hhd.
  destruct (strings.Split (pName packageInfo) "/") as [|a [|b [|c rest]]];
    cbn in Hlen, Hlen'; try lia.
  unfold FullName. cbn [Scope pName nth]. cbn [hd] in Hhd.
  rewrite decide_False by (intros ->; discriminate). exact Hjoin.
Qed.

(** X6: a manifest named [@s/n], with no slash in [s] and [n], has scope
    [@s] and name [n]; its module id is [s:n:version] and its deploy path
    [@s/n/-/n-version.tgz]. *)
Theorem scoped_package_identity (packageInfo : PackageInfo) (s n : string) :
  pName packageInfo = "@" +:+ s +:+ "/" +:+ n →
  strings.Contains s "/"%char = false →
  strings.Contains n "/"%char = false →
  splitScopeFromName packageInfo
  = {| pName := n; pVersion := pVersion packageInfo; Scope := "@" +:+ s |}
  ∧ BuildInfoModuleId (splitScopeFromName packageInfo)
    = s +:+ ":" +:+ n +:+ ":" +:+ pVersion packageInfo
  ∧ GetDeployPath (splitScopeFromName packageInfo)
    = "@" +:+ s +:+ "/" +:+ n +:+ "/-/" +:+ n +:+ "-" +:+ pVersion packageInfo +:+ ".tgz".
Proof.
  intros Hname Hs Hn.
  assert (splitScopeFromName packageInfo
          = {| pName := n; pVersion := pVersion packageInfo; Scope := "@" +:+ s |}) as Hsplit.
  { unfold splitScopeFromName. rewrite Hname.
    change ("@" +:+ s +:+ "/" +:+ n) with (String "@" s +:+ String "/" n).
    rewrite (Split_app_sep (String "@" s) n "/"%char) by exact Hs.
    rewrite (Split_no_sep n) by exact Hn.
    replace (strings.Contains (String "@" s +:+ String "/" n) "/") with true;
      [rewrite append_cons; cbn [strings.HasPrefix];
       by rewrite Ascii.eqb_refl, HasPrefix_empty|].
    symmetry. clear. rewrite append_cons. cbn [strings.Contains]. cbn [Ascii.eqb Bool.eqb].
    induction s as [|c s IH]; cbn [strings.Contains].
    - rewrite append_nil_l. cbn [strings.Contains]. by rewrite Ascii.eqb_refl.
    - rewrite append_cons. cbn [strings.Contains]. by destruct (Ascii.eqb c "/"). }
  rewrite Hsplit. split_and!; [done| |].
  - unfold BuildInfoModuleId. cbn [Scope pName pVersion].
    rewrite decide_False by discriminate.
    change ("@" +:+ s) with (String "@" s). by rewrite TrimPrefix_byte.
  - unfold GetDeployPath. cbn [Scope pName pVersion].
    rewrite decide_False by discriminate. by rewrite !append_assoc.
Qed.

(** X7: the deploy path of a package is its full name followed by
    [/-/name-version.tgz]. *)
Theorem GetDeployPath_extends_FullName (pi : PackageInfo) :
  GetDeployPath pi
  = FullName pi +:+ "/-/" +:+ pName pi +:+ "-" +:+ pVersion pi +:+ ".tgz".
Proof.
  unfold GetDeployPath, FullName. case_decide; [done|]. by rewrite !append_assoc.
Qed.

Lemma splitScopeFromName_frame p version :
  splitScopeFromName {| pName := pName p; pVersion := version; Scope := Scope p |}
  = {| pName := pName (splitScopeFromName p); pVersion := version;
       Scope := Scope (splitScopeFromName p) |}.
Proof. unfold splitScopeFromName. cbn [pName]. by destruct (_ && _)%bool. Qed.

(** X8: whether a manifest can be read, and the name and the scope read
    from it, do not depend on the version of npm. *)
Theorem ReadPackageInfo_name_ignores_npm (w : World) (data : string)
    (npmVersion npmVersion' : option string) :
  match ReadPackageInfo w data npmVersion, ReadPackageInfo w data npmVersion' with
  | Ok r, Ok r' => pName r = pName r' ∧ Scope r = Scope r'
  | Err e, Err e' => e = e'
  | _, _ => False
  end.
Proof.
  unfold ReadPackageInfo.
  destruct (json_Unmarshal w data) as [doc|e]; [|done].
  destruct (Unmarshal set_package_member zero_PackageInfo doc) as [decoded|e]; [|done].
  assert (∀ v p, let p' := match v with
                           | Some v0 => if Z.ltb 0 (Compare w v0 "7.0.0")
                                        then removeVersionPrefixes p else p
                           | None => p
                           end in
                 pName (splitScopeFromName p') = pName (splitScopeFromName p)
                 ∧ Scope (splitScopeFromName p') = Scope (splitScopeFromName p)) as H.
  { intros v p. cbv zeta.
    destruct v as [v0|]; [|done]. destruct (Z.ltb 0 _); [|done].
    unfold removeVersionPrefixes. by rewrite splitScopeFromName_frame. }
  destruct (H npmVersion (default zero_PackageInfo decoded)) as [-> ->].
  destruct (H npmVersion' (default zero_PackageInfo decoded)) as [-> ->]. done.
Qed.

(** ** What a walk merges and logs *)

Lemma merges_of_fail Q o : merges_of Q (fun st => (st, o)).
Proof.
  exists [], [], o. split_and!; [done..|]. intros [m log]. cbn. by rewrite app_nil_r.
Qed.

Lemma merges_of_skip Q msg :
  merges_of Q (fun st => (mkWalk (dependencies st) (Debug (walk_log st) msg), None)).
Proof.
  exists [], [mkLog DEBUG msg], None. split_and!; [done| |done].
  by apply Forall_singleton.
Qed.

Lemma merges_of_after (Q : occurrence → Prop) dep pathToRoot run :
  Q (dep, pathToRoot) → merges_of Q run →
  merges_of Q (fun st => run (mkWalk (appendDependency (dependencies st) dep pathToRoot)
                                     (walk_log st))).
Proof.
  intros HQ (occs & msgs & err & Hoccs & Hmsgs & Hrun).
  exists ((dep, pathToRoot) :: occs), msgs, err. split_and!; [by constructor|done|].
  intros st. by rewrite Hrun.
Qed.

Lemma merges_of_then Q run1 run2 :
  merges_of Q run1 → merges_of Q run2 →
  merges_of Q (fun st => match run1 st with
                         | (st', Some e) => (st', Some e)
                         | (st', None) => run2 st'
                         end).
Proof.
  intros (occs1 & msgs1 & err1 & Ho1 & Hm1 & H1) (occs2 & msgs2 & err2 & Ho2 & Hm2 & H2).
  destruct err1 as [e|].
  - exists occs1, msgs1, (Some e). split_and!; [done..|]. intros st. by rewrite H1.
  - exists (occs1 ++ occs2), (msgs1 ++ msgs2), err2.
    split_and!; [by apply Forall_app|by apply Forall_app|].
    intros st. rewrite H1, H2. cbn. by rewrite appendAll_app, app_assoc.
Qed.

Lemma merges_of_ext Q run1 run2 :
  (∀ st, run1 st = run2 st) → merges_of Q run1 → merges_of Q run2.
Proof.
  intros Heq (occs & msgs & err & ? & ? & H). exists occs, msgs, err.
  split_and!; [done..|]. intros st. by rewrite <- Heq.
Qed.

Lemma merges_of_weaken (Q Q' : occurrence → Prop) run :
  (∀ o, Q o → Q' o) → merges_of Q run → merges_of Q' run.
Proof.
  intros HQ (occs & msgs & err & Ho & ? & H). exists occs, msgs, err.
  split_and!; [|done..]. eapply Forall_impl; [exact Ho|exact HQ].
Qed.

Lemma walked_deeper parseFunc k pathToRoot o :
  walked parseFunc (k :: pathToRoot) o → walked parseFunc pathToRoot o.
Proof.
  intros (? & Hsuf & ?). split_and!; [done| |done].
  etrans; [|exact Hsuf]. by apply suffix_cons_r.
Qed.

Lemma visit_merges_of parseFunc pathToRoot key value :
  (∀ transitive path, Get value "dependencies" = Ok transitive →
     merges_of (walked parseFunc path) (parseDependencies parseFunc transitive path)) →
  merges_of (walked parseFunc pathToRoot) (visit parseFunc pathToRoot key value).
Proof.
  intros Hrec. unfold visit.
  case_decide; [apply merges_of_skip|].
  destruct (parseFunc value) as [dep|e] eqn:Hparse; [|apply merges_of_fail].
  case_decide as Hver.
  { destruct (Missing dep || not_nil (Problems dep))%bool;
      [apply merges_of_skip|apply merges_of_fail]. }
  assert (walked parseFunc pathToRoot (dep, pathToRoot)) as Hw.
  { split_and!; [done|done|by exists value]. }
  destruct (Get value "dependencies") as [t|e].
  - destruct (Nat.ltb 0 _).
    + apply (merges_of_after _ dep pathToRoot
               (parseDependencies parseFunc t (id dep :: pathToRoot))); [done|].
      eapply merges_of_weaken; [apply walked_deeper|]. by apply Hrec.
    + apply (merges_of_after _ dep pathToRoot (fun st => (st, None))); [done|].
      apply merges_of_fail.
  - case_decide.
    + apply (merges_of_after _ dep pathToRoot (fun st => (st, None))); [done|].
      apply merges_of_fail.
    + apply (merges_of_after _ dep pathToRoot (fun st => (st, Some e))); [done|].
      apply merges_of_fail.
Qed.

Lemma each_member_merges_of Q callback members :
  Forall (fun kv => merges_of Q (callback kv.1 kv.2)) members →
  merges_of Q (each_member callback members).
Proof.
  induction 1 as [|[key value] members Hkv _ IH]; [apply merges_of_fail|].
  cbn [each_member]. by apply (merges_of_then Q (callback key value)).
Qed.

Lemma parseDependencies_merges_of parseFunc data pathToRoot :
  merges_of (walked parseFunc pathToRoot) (parseDependencies parseFunc data pathToRoot).
Proof.
  revert pathToRoot.
  cut ((∀ path, merges_of (walked parseFunc path) (parseDependencies parseFunc data path)) ∧
       ∀ fields, data = JObject fields →
         Forall (fun kt => ∀ path, merges_of (walked parseFunc path)
                                     (parseDependencies parseFunc kt.2 path)) fields).
  { by intros [? _]. }
  induction data as [| | | | |members IH] using json_ind;
    try (split; [intros; apply merges_of_fail|intros; discriminate]).
  split.
  - intros path.
    apply (merges_of_ext _ (ObjectEach (JObject members) (visit parseFunc path))).
    { intros st. by rewrite parseDependencies_eq. }
    cbn [ObjectEach]. apply each_member_merges_of.
    eapply Forall_impl; [exact IH|]. intros [key value] [_ Hsub]. cbn.
    apply visit_merges_of. intros t path' Hget.
    destruct value as [| | | | |fields]; try discriminate.
    apply get_member_elem in Hget.
    specialize (Hsub fields eq_refl). rewrite Forall_forall in Hsub.
    by apply (Hsub ("dependencies", t)).
  - intros fields [= <-]. eapply Forall_impl; [exact IH|]. by intros ? [? _].
Qed.

(** X9: a walk writes debug entries only, and what it adds to the log and
    whether it ends with an error are the same whatever map and log it
    starts from. *)
Theorem walk_outcome_ignores_the_map
    (parseFunc : json → Result npmLsDependency) (data : json) (pathToRoot : list string) :
  ∃ msgs err,
    Forall (fun entry => level entry = DEBUG) msgs ∧
    ∀ st, (parseDependencies parseFunc data pathToRoot st).2 = err ∧
          walk_log (parseDependencies parseFunc data pathToRoot st).1 = walk_log st ++ msgs.
Proof.
  destruct (parseDependencies_merges_of parseFunc data pathToRoot)
    as (occs & msgs & err & _ & Hmsgs & H).
  exists msgs, err. split; [done|]. intros st. by rewrite H.
Qed.



Lemma each_member_app {S : Type} (callback : string → json → S → S * option error)
    ms1 ms2 st :
  each_member callback (ms1 ++ ms2) st
  = match each_member callback ms1 st with
    | (st', Some e) => (st', Some e)
    | (st', None) => each_member callback ms2 st'
    end.
Proof.
  revert st. induction ms1 as [|[key value] ms1 IH]; intros st; [done|].
  cbn [each_member app]. destruct (callback key value st) as [st' [e|]]; [done|]. apply IH.
Qed.

(** X11: walking an object is walking its members in order: the walk of
    the members [ms1 ++ ms2] is the walk of [ms1] followed, unless that one
    failed, by the walk of [ms2] from the state it left; nothing after a
    failing member is visited, and an object without members changes
    nothing. *)
Theorem walk_of_members_in_sequence
    (parseFunc : json → Result npmLsDependency) (ms1 ms2 : list (string * json))
    (pathToRoot : list string) (st : Walk) :
  parseDependencies parseFunc (JObject (ms1 ++ ms2)) pathToRoot st
  = match parseDependencies parseFunc (JObject ms1) pathToRoot st with
    | (st', Some e) => (st', Some e)
    | (st', None) => parseDependencies parseFunc (JObject ms2) pathToRoot st'
    end
  ∧ parseDependencies parseFunc (JObject []) pathToRoot st = (st, None).
Proof.
  split; [|done]. rewrite !parseDependencies_eq. cbn [ObjectEach].
  rewrite each_member_app.
  destruct (each_member _ ms1 st) as [st' [e|]]; [done|].
  by rewrite parseDependencies_eq.
Qed.

(** ** The entries of a map filled by walks *)

Lemma merged_inv parseFunc root k cur o :
  (∀ d0, cur = Some d0 → entry_inv root k d0) →
  walked parseFunc root o → id o.1 = k →
  entry_inv root k (merged cur o.1 o.2).
Proof.
  intros Hcur (Hver & Hsuf & _) Hk. destruct cur as [d0|]; cbn [merged].
  - destruct (Hcur d0 eq_refl) as (Hid & Hkey & Hv & Hwf & Hne & Hpaths & Hcs).
    split_and!; cbn; try done.
    + apply appendScopes_wf. by right.
    + by destruct (RequestedBy (dependency d0)).
    + apply Forall_app. split; [done|]. by apply Forall_singleton.
  - split_and!; cbn; try done.
    + apply appendScopes_wf. by left.
    + by apply Forall_singleton.
Qed.

Lemma entry_after_inv parseFunc root k occs cur d :
  Forall (walked parseFunc root) occs →
  (∀ d0, cur = Some d0 → entry_inv root k d0) →
  entry_after k occs cur = Some d → entry_inv root k d.
Proof.
  intros Hoccs. revert cur. induction Hoccs as [|o occs Ho _ IH]; intros cur Hcur.
  - intros ?. by apply Hcur.
  - rewrite entry_after_cons. apply IH. case_decide as Hk; [|done].
    intros d0 [= <-]. by eapply merged_inv.
Qed.

Lemma parseDependencies_map_inv parseFunc data root st :
  map_inv root (dependencies st) →
  map_inv root (dependencies (parseDependencies parseFunc data root st).1).
Proof.
  intros Hinv k d.
  destruct (parseDependencies_merges_of parseFunc data root)
    as (occs & msgs & err & Hoccs & _ & H).
  rewrite H. cbn [fst dependencies]. rewrite appendAll_lookup.
  apply (entry_after_inv parseFunc root k occs _ d Hoccs).
  intros d0 Hd0. by apply Hinv.
Qed.

(** X12: a walk under a path keeps what holds of every entry of a map
    filled by walks under that path, also when it ends with an error: the
    entry is stored under its id, which is the name and the version of its
    record joined by a colon; the version is not empty; the scopes are
    duplicate-free with [dev] or [prod] among them; there is at least one
    path and every path ends with the path of the walk; the checksums are
    empty. *)
Theorem walk_keeps_entries_well_formed
    (parseFunc : json → Result npmLsDependency) (data : json) (root : list string)
    (st : Walk) :
  map_inv root (dependencies st) →
  map_inv root (dependencies (parseDependencies parseFunc data root st).1).
Proof. apply parseDependencies_map_inv. Qed.

Lemma collect_map_inv w executablePath moduleId data errData log m err log' :
  collect w executablePath moduleId data errData log = (Ok (m, err), log') →
  map_inv [moduleId] m.
Proof.
  unfold collect, bind.
  destruct (when _ _ log) as [[[]|e] log1]; [|done].
  destruct (GetNpmVersion w executablePath log1) as [[npmVersion|e] log2]; [|done].
  destruct (document w data) as [doc|e].
  2:{ intros [= <- _ _]. by intros k d ?%lookup_empty_Some. }
  destruct (ObjectEach doc _ _) as [st err'] eqn:Hwalk. intros [= <- _ _].
  change st with (st, err').1. rewrite <- Hwalk.
  destruct doc as [| | | | |members];
    try (cbn [ObjectEach fst dependencies]; by intros k d ?%lookup_empty_Some).
  cbn [ObjectEach].
  apply (each_member_invariant (fun st => map_inv [moduleId] (dependencies st))).
  - intros key value st0 Hst0. case_decide; [|done].
    by apply parseDependencies_map_inv.
  - cbn. by intros k d ?%lookup_empty_Some.
Qed.

(** X13: every entry of the map [CalculateDependenciesMap] returns, with or
    without an error of the walk next to it, is stored under the name and
    the version of its record joined by a colon, has a version, scopes
    without duplicates that hold [dev] or [prod], empty checksums, and at
    least one path, and each of its paths ends with the id of the module. *)
Theorem CalculateDependenciesMap_entries_well_formed
    (w : World) (executablePath srcPath moduleId : string) (npmArgs : list string)
    (log log' : Log) (m : gmap string dependencyInfo) (err : option error) :
  CalculateDependenciesMap w executablePath srcPath moduleId npmArgs log
  = (Ok (m, err), log') →
  ∀ k d, m !! k = Some d →
    Id (dependency d) = k ∧
    k = Name (lsDependency d) +:+ ":" +:+ Version (lsDependency d) ∧
    Version (lsDependency d) ≠ "" ∧
    scopes_wf (Scopes (dependency d)) ∧
    RequestedBy (dependency d) ≠ [] ∧
    Forall (fun path => last path = Some moduleId) (RequestedBy (dependency d)) ∧
    checksum (dependency d) = mkChecksum "" "" "".
Proof.
  unfold CalculateDependenciesMap. unfold bind at 1.
  destruct (RunNpmCmd _ _ _ _ _ _) as [[[[data errData] e]|?] log1]; [|done].
  unfold bind at 1.
  match goal with
  | |- context [match ?c log1 with _ => _ end] => destruct (c log1) as [[[]|?] log2]
  end; [|done].
  intros Hcollect k d Hd.
  destruct (collect_map_inv _ _ _ _ _ _ _ _ _ Hcollect k d Hd)
    as (? & ? & ? & ? & ? & Hpaths & ?).
  split_and!; try done.
  eapply Forall_impl; [exact Hpaths|]. intros path [pre ->]. by rewrite last_snoc.
Qed.

(** ** The lists of the assembler *)

Section Lists.
Variable w : World.
Variable calculateChecksums : bool.
Variable cacache : string.

Lemma classify_list_and_log b dep :
  dependenciesList (classify w calculateChecksums cacache b dep)
  = dependenciesList b
    ++ (if decide (destination w calculateChecksums cacache dep = Included)
        then [included_record w calculateChecksums cacache dep] else [])
  ∧ loop_log (classify w calculateChecksums cacache b dep)
    = loop_log b ++ loop_line w calculateChecksums cacache dep.
Proof.
  unfold classify, destination, included_record, loop_line, destination. cbv zeta.
  destruct (bool_decide (Integrity (lsDependency dep) = "") && InBundle (lsDependency dep))%bool.
  { cbn. by rewrite !app_nil_r. }
  destruct (bool_decide (Integrity (lsDependency dep) = "")
            && not_nil (PeerMissing (lsDependency dep)))%bool.
  { cbn. by rewrite !app_nil_r. }
  destruct calculateChecksums; cbn [andb].
  2:{ cbn. by rewrite !app_nil_r. }
  destruct (calculateChecksum _ _ _ _ _) as [[[md5 sha1] sha256] [e|]]; cbn [snd not_nil].
  - destruct (Optional (lsDependency dep)); cbn; by rewrite !app_nil_r.
  - cbn. by rewrite !app_nil_r.
Qed.

Lemma fold_list_and_log entries b :
  dependenciesList (fold_left (classify w calculateChecksums cacache) entries b)
  = dependenciesList b
    ++ (included_record w calculateChecksums cacache
          <$> filter (fun d => destination w calculateChecksums cacache d = Included) entries)
  ∧ loop_log (fold_left (classify w calculateChecksums cacache) entries b)
    = loop_log b ++ concat (loop_line w calculateChecksums cacache <$> entries).
Proof.
  revert b. induction entries as [|dep entries IH]; intros b; cbn [fold_left].
  - cbn. by rewrite !app_nil_r.
  - destruct (IH (classify w calculateChecksums cacache b dep)) as [-> ->].
    destruct (classify_list_and_log b dep) as [-> ->].
    rewrite filter_cons, <- !app_assoc. split; [|done].
    case_decide; done.
Qed.

End Lists.

Lemma destination_without_checksums w cacache d :
  destination w false cacache d = Included ↔ left_out d = false.
Proof.
  unfold destination, left_out. cbv zeta.
  destruct (bool_decide (Integrity (lsDependency d) = ""));
    destruct (InBundle (lsDependency d));
    destruct (not_nil (PeerMissing (lsDependency d))); cbn; done.
Qed.

Lemma loop_lines_without_checksums w cacache (l : list dependencyInfo) :
  concat (loop_line w false cacache <$> l) = [].
Proof.
  induction l as [|d l IH]; [done|].
  cbn [fmap list_fmap concat]. rewrite IH, app_nil_r.
  unfold loop_line, destination. cbv zeta.
  destruct (bool_decide (Integrity (lsDependency d) = "") && InBundle (lsDependency d))%bool;
    [done|].
  by destruct (bool_decide (Integrity (lsDependency d) = "")
               && not_nil (PeerMissing (lsDependency d)))%bool.
Qed.

Lemma partition_map_list_and_log
    (w : World) (calculateChecksums : bool) (cacache : string)
    (m : gmap string dependencyInfo) (log : Log) :
  dependenciesList (partition_map w calculateChecksums cacache m log)
  = included_record w calculateChecksums cacache
      <$> filter (fun d => destination w calculateChecksums cacache d = Included)
            (range_order w m)
  ∧ loop_log (partition_map w calculateChecksums cacache m log)
    = log ++ concat (loop_line w calculateChecksums cacache <$> range_order w m)
  ∧ dependenciesList (partition_map w false cacache m log)
    = dependency <$> filter (fun d => left_out d = false) (range_order w m)
  ∧ loop_log (partition_map w false cacache m log) = log.
Proof.
  unfold partition_map.
  destruct (fold_list_and_log w calculateChecksums cacache (range_order w m)
              (mkBuckets [] [] [] [] [] log)) as [Hlist Hlog].
  destruct (fold_list_and_log w false cacache (range_order w m)
              (mkBuckets [] [] [] [] [] log)) as [Hlist' Hlog'].
  split_and!; [exact Hlist|exact Hlog| |].
  - rewrite Hlist'. cbn [dependenciesList app]. unfold included_record.
    f_equal. apply list_filter_iff. intros d. apply destination_without_checksums.
  - rewrite Hlog'. cbn [loop_log].
    by rewrite loop_lines_without_checksums, app_nil_r.
Qed.

(** X14: the final list of the assembler holds, in the order of the loop,
    the records of the entries the rules include, with the checksums of the
    cache when they were asked for and as they are in the map when not; the
    loop logs one debug line for each entry that is not optional and whose
    checksums cannot be resolved, and nothing else.  Without checksums the
    list leaves out the entries without a digest that are bundled or
    peer-missing, and no others, and the loop logs nothing. *)
Theorem assembler_final_list_and_log
    (w : World) (calculateChecksums : bool) (cacache : string)
    (m : gmap string dependencyInfo) (log : Log) :
  dependenciesList (partition_map w calculateChecksums cacache m log)
  = included_record w calculateChecksums cacache
      <$> filter (fun d => destination w calculateChecksums cacache d = Included)
            (range_order w m)
  ∧ loop_log (partition_map w calculateChecksums cacache m log)
    = log ++ concat (loop_line w calculateChecksums cacache <$> range_order w m)
  ∧ dependenciesList (partition_map w false cacache m log)
    = dependency <$> filter (fun d => left_out d = false) (range_order w m)
  ∧ loop_log (partition_map w false cacache m log) = log.
Proof. apply partition_map_list_and_log. Qed.

Lemma destination_counts w calculateChecksums cacache (l : list dependencyInfo) :
  length (filter (fun d => destination w calculateChecksums cacache d = MissingBundled) l)
  + length (filter (fun d => destination w calculateChecksums cacache d = MissingPeer) l)
  + length (filter (fun d => destination w calculateChecksums cacache d = MissingOptional) l)
  + length (filter (fun d => destination w calculateChecksums cacache d = OtherMissing) l)
  + length (filter (fun d => destination w calculateChecksums cacache d = Included) l)
  = length l.
Proof.
  induction l as [|d l IH]; [done|]. rewrite !filter_cons.
  destruct (destination w calculateChecksums cacache d);
    repeat case_decide; try done; cbn [length]; lia.
Qed.

(** X15: for a map keyed by id, no id comes twice in a bucket or in the
    final list, every id of a bucket or of the list is a key of the map, and
    the sizes of the four buckets and of the list add up to the size of the
    map: every entry is accounted for once. *)
Theorem assembler_accounts_for_every_entry
    (w : World) (calculateChecksums : bool) (cacache : string)
    (m : gmap string dependencyInfo) (log : Log) :
  ids_are_keys m →
  range_order w m ≡ₚ (map_to_list m).*2 →
  (∀ dest, NoDup (bucket (partition_map w calculateChecksums cacache m log) dest))
  ∧ (∀ dest k, k ∈ bucket (partition_map w calculateChecksums cacache m log) dest →
               is_Some (m !! k))
  ∧ length (missingBundledDeps (partition_map w calculateChecksums cacache m log))
    + length (missingPeerDeps (partition_map w calculateChecksums cacache m log))
    + length (missingOptionalDeps (partition_map w calculateChecksums cacache m log))
    + length (otherMissingDeps (partition_map w calculateChecksums cacache m log))
    + length (dependenciesList (partition_map w calculateChecksums cacache m log))
    = size m.
Proof.
  intros Hids Hperm.
  assert ((fun d => Id (dependency d)) <$> range_order w m ≡ₚ (map_to_list m).*1) as Hkeys.
  { rewrite Hperm. rewrite <- list_fmap_compose.
    erewrite list_fmap_ext; [reflexivity|].
    intros i [k d] Hkd. cbn. apply Hids.
    apply elem_of_map_to_list. by eapply list_elem_of_lookup_2. }
  split_and!.
  - intros dest. rewrite bucket_partition_map.
    apply (sublist_NoDup _ ((fun d => Id (dependency d)) <$> range_order w m)).
    + rewrite Hkeys. apply NoDup_fst_map_to_list.
    + apply fmap_sublist, sublist_filter.
  - intros dest k. rewrite bucket_partition_map.
    intros (d & -> & [_ Hd]%list_elem_of_filter)%list_elem_of_fmap.
    rewrite Hperm in Hd. apply list_elem_of_fmap in Hd as ([k d'] & -> & Hkd).
    apply elem_of_map_to_list in Hkd. cbn. rewrite (Hids k d' Hkd). eauto.
  - pose proof (bucket_partition_map w calculateChecksums cacache m log) as Hb.
    pose proof (Hb MissingBundled) as H1. pose proof (Hb MissingPeer) as H2.
    pose proof (Hb MissingOptional) as H3. pose proof (Hb OtherMissing) as H4.
    pose proof (Hb Included) as H5. cbn [bucket] in H1, H2, H3, H4, H5.
    rewrite H1, H2, H3, H4.
    rewrite <- (length_fmap Id (dependenciesList _)), H5, !length_fmap.
    rewrite destination_counts, <- (length_map_to_list m).
    rewrite Hperm. by rewrite length_fmap.
Qed.

(** ** Checksums from the cache *)

(** X16: with a digest, the index of the cache is not looked at: the
    result is what the tarball of that digest gives.  Without one, an
    error of the index is the error returned, with empty checksums, and a
    digest found in the index gives what resolving with that digest
    gives. *)
Theorem calculateChecksum_two_steps (w : World) (cacache name version : string) :
  (∀ integrity, integrity ≠ "" →
     calculateChecksum w cacache name version integrity
     = match GetTarball w cacache integrity with
       | Err err => ("", "", "", Some err)
       | Ok path => GetFileChecksums w path
       end)
  ∧ (∀ err, GetInfo w cacache (name +:+ "@" +:+ version) = Err err →
       calculateChecksum w cacache name version "" = ("", "", "", Some err))
  ∧ (∀ integrity, GetInfo w cacache (name +:+ "@" +:+ version) = Ok integrity →
       calculateChecksum w cacache name version ""
       = calculateChecksum w cacache name version integrity).
Proof.
  split_and!.
  - intros integrity Hne. unfold calculateChecksum. by rewrite decide_False.
  - intros err Hinfo. unfold calculateChecksum. by rewrite decide_True, Hinfo.
  - intros integrity Hinfo. unfold calculateChecksum. rewrite decide_True by done.
    rewrite Hinfo. by case_decide.
Qed.

(** ** Running npm *)




(** X19: when [GetNpmConfigCache] returns a path, the command
    [config get cache] with the caller's arguments and [--json=false] ran
    without an error, the path is its output without the newlines around
    it joined with [_cacache], and that directory was found. *)
Theorem GetNpmConfigCache_returns_an_existing_cache
    (w : World) (srcPath executablePath : string) (npmArgs : list string)
    (log log' : Log) (cachePath : string) :
  GetNpmConfigCache w srcPath executablePath npmArgs log = (Ok cachePath, log') →
  ∃ data errData,
    command_Run w executablePath
      ("config" :: List.filter strings.TrimSpace_nonempty
                     (["get"; "cache"] ++ npmArgs ++ ["--json=false"]))
      srcPath = (data, errData, None) ∧
    cachePath = filepath_Join w (strings.Trim data "010"%char) "_cacache" ∧
    IsDirExists w cachePath true = (true, None).
Proof.
  unfold GetNpmConfigCache, RunNpmCmd, bind, log_Debug, ret, fail. cbn [app].
  change (NpmCmd.String NpmCmd.Config) with "config".
  destruct (command_Run w executablePath _ srcPath) as [[data errData] [e|]] eqn:Hrun.
  - cbn. destruct (when _ _ _) as [[[]|?] ?]; done.
  - cbn. destruct (when _ _ _) as [[[]|?] log1]; [|done].
    destruct (IsDirExists w _ true) as [found [e|]] eqn:Hdir; [done|].
    destruct found; [|done]. cbn. intros [= <- _].
    exists data, errData. split_and!; [|done..].
    rewrite <- Hrun. reflexivity.
Qed.

(** ** The list of dependencies *)

Lemma report_result (b : Buckets) (log : Log) :
  ((when (Nat.ltb 0 (length (missingPeerDeps b)))
      (printMissingDependenciesWarning "peerDependency" (missingPeerDeps b)) ;;;
    when (Nat.ltb 0 (length (missingBundledDeps b)))
      (printMissingDependenciesWarning "bundleDependencies" (missingBundledDeps b)) ;;;
    when (Nat.ltb 0 (length (missingOptionalDeps b)))
      (printMissingDependenciesWarning "optionalDependencies" (missingOptionalDeps b)) ;;;
    when (Nat.ltb 0 (length (otherMissingDeps b)))
      (log_Warn ("The following dependencies will not be included in the build-info, because they are missing in the npm cache: '"
         +:+ strings.Join (otherMissingDeps b) "," +:+ "'." +:+ nl
         +:+ "Hint: Try to delete 'node_models' and/or 'package-lock.json'.")) ;;;
    ret (dependenciesList b)) log).1
  = Ok (dependenciesList b).
Proof.
  unfold when, printMissingDependenciesWarning, log_Debug, log_Warn, ret, bind.
  by repeat destruct (Nat.ltb 0 _).
Qed.

(** X20: [CalculateNpmDependenciesList] gives up with the error of
    [CalculateDependenciesMap], whether that one returned no map or a map
    next to the error of the walk, and then logs nothing more and does not
    look for the cache. *)
Theorem CalculateNpmDependenciesList_gives_up
    (w : World) (executablePath srcPath moduleId : string) (npmArgs : list string)
    (calculateChecksums : bool) (log log1 : Log) (e : error) :
  (CalculateDependenciesMap w executablePath srcPath moduleId npmArgs log = (Err e, log1)
   ∨ ∃ m, CalculateDependenciesMap w executablePath srcPath moduleId npmArgs log
          = (Ok (m, Some e), log1)) →
  CalculateNpmDependenciesList w executablePath srcPath moduleId npmArgs calculateChecksums log
  = (Err e, log1).
Proof.
  intros [Hmap|[m Hmap]]; unfold CalculateNpmDependenciesList; unfold bind at 1;
    by rewrite Hmap.
Qed.

(** X21: after a walk without an error, [CalculateNpmDependenciesList]
    without checksums returns the records of the map, as the walk left them,
    of all entries but those without a digest that are bundled or
    peer-missing; with checksums it gives up when the cache is not found, and
    otherwise returns the records of the entries the rules include with the
    checksums of the cache. *)
Theorem CalculateNpmDependenciesList_result
    (w : World) (executablePath srcPath moduleId : string) (npmArgs : list string)
    (log log1 : Log) (m : gmap string dependencyInfo) :
  CalculateDependenciesMap w executablePath srcPath moduleId npmArgs log
  = (Ok (m, None), log1) →
  (CalculateNpmDependenciesList w executablePath srcPath moduleId npmArgs false log).1
  = Ok (dependency <$> filter (fun d => left_out d = false) (range_order w m))
  ∧ (∀ e log2, GetNpmConfigCache w srcPath executablePath npmArgs log1 = (Err e, log2) →
       CalculateNpmDependenciesList w executablePath srcPath moduleId npmArgs true log
       = (Err e, log2))
  ∧ (∀ cacache log2,
       GetNpmConfigCache w srcPath executablePath npmArgs log1 = (Ok cacache, log2) →
       (CalculateNpmDependenciesList w executablePath srcPath moduleId npmArgs true log).1
       = Ok (included_record w true cacache
               <$> filter (fun d => destination w true cacache d = Included)
                     (range_order w m))).
Proof.
  intros Hmap. split_and!.
  - unfold CalculateNpmDependenciesList. unfold bind at 1. rewrite Hmap.
    unfold bind at 1. unfold ret at 1. unfold bind at 1.
    rewrite report_result.
    by destruct (partition_map_list_and_log w false "" m log1) as (_ & _ & -> & _).
  - intros e log2 Hcache. unfold CalculateNpmDependenciesList. unfold bind at 1.
    rewrite Hmap. unfold bind at 1. by rewrite Hcache.
  - intros cacache log2 Hcache. unfold CalculateNpmDependenciesList. unfold bind at 1.
    rewrite Hmap. unfold bind at 1. rewrite Hcache. unfold bind at 1.
    rewrite report_result.
    by destruct (partition_map_list_and_log w true cacache m log2) as (-> & _).
Qed.

(** ** Finding npm *)

(** X22: when [GetNpmVersionAndExecPath] returns a version and a path, the
    path is the one [exec.LookPath] found for [npm] and is not empty, and the
    version is the one [GetNpmVersion] reads from that executable; when npm
    is not found, or found under an empty path, it fails before running or
    logging anything. *)
Theorem GetNpmVersionAndExecPath_agrees_with_GetNpmVersion
    (w : World) (LookPath : string → Result string) (log : Log) :
  (∀ version npmExecPath log',
     GetNpmVersionAndExecPath w LookPath log = (Ok (version, npmExecPath), log') →
     LookPath "npm" = Ok npmExecPath ∧ npmExecPath ≠ "" ∧
     ∃ log1,
       GetNpmVersion w npmExecPath
         (log ++ [mkLog DEBUG ("Using npm executable: " +:+ npmExecPath)])
       = (Ok version, log1) ∧
       log' = log1 ++ [mkLog DEBUG ("Using npm version: " +:+ version)])
  ∧ (∀ e, LookPath "npm" = Err e →
       GetNpmVersionAndExecPath w LookPath log = (Err e, log))
  ∧ (LookPath "npm" = Ok "" →
       GetNpmVersionAndExecPath w LookPath log
       = (Err (ErrorString "could not find the 'npm' executable in the system PATH"), log)).
Proof.
  split_and!.
  - intros version npmExecPath log'. unfold GetNpmVersionAndExecPath, GetNpmVersion.
    destruct (LookPath "npm") as [path|e]; [|done].
    case_decide as Hpath; [done|].
    unfold bind at 1. unfold log_Debug at 1. unfold bind.
    change (Debug log ("Using npm executable:" +:+ " " +:+ path))
      with (log ++ [mkLog DEBUG ("Using npm executable: " +:+ path)]).
    destruct (RunNpmCmd w path "" NpmCmd.Version [] _)
      as [[[[out errOut] [e|]]|e] log1] eqn:Hrun; [done| |done].
    unfold log_Debug, ret, Debug. intros [= <- <- <-].
    split_and!; [done..|]. exists log1. by rewrite Hrun.
  - intros e Hlook. unfold GetNpmVersionAndExecPath. by rewrite Hlook.
  - intros Hlook. unfold GetNpmVersionAndExecPath. by rewrite Hlook.
Qed.

(** ** Legacy nodes and listings *)

(** X23: a record from the legacy parser has no problems list, so a legacy
    node without a version is skipped when its missing flag is set and makes
    the walk fail when it is not, whatever [problems] member the node
    holds. *)
Theorem legacy_node_without_version
    (pathToRoot : list string) (key : string) (value : json) (st : Walk)
    (dep : npmLsDependency) :
  bytes_of value ≠ "{}" →
  legacyNpmLsDependencyParser value = Ok dep →
  Version dep = "" →
  Problems dep = None
  ∧ visit legacyNpmLsDependencyParser pathToRoot key value st
    = if Missing dep
      then (mkWalk (dependencies st) (walk_log st ++ [mkLog DEBUG (missing_peer_msg key)]),
            None)
      else (st, Some (failed_to_parse value)).
Proof.
  intros Hbody Hparse Hver.
  assert (Problems dep = None) as Hpr.
  { unfold legacyNpmLsDependencyParser in Hparse.
    destruct (Unmarshal _ _ value) as [[l|]|e]; try discriminate.
    by injection Hparse as <-. }
  split; [done|]. unfold visit.
  rewrite decide_False, Hparse, decide_True, Hpr by done.
  by destruct (Missing dep).
Qed.

Lemma each_member_filter {S : Type}
    (callback : string → json → S → S * option error) members st :
  (∀ key value st, key ≠ "dependencies" → callback key value st = (st, None)) →
  each_member callback
    (filter (fun kv : string * json => kv.1 = "dependencies") members) st
  = each_member callback members st.
Proof.
  intros Hskip. revert st. induction members as [|[key value] members IH]; intros st; [done|].
  rewrite filter_cons. cbn [fst]. case_decide as HP; cbn [each_member].
  - destruct (callback key value st) as [st' [e|]]; [done|]. apply IH.
  - rewrite (Hskip key value st HP). apply IH.
Qed.

(** X24: of the listing only the members called [dependencies] are read:
    a listing and the listing made of its [dependencies] members alone give
    the same map, the same error and the same log. *)
Theorem collect_reads_dependencies_only
    (w : World) (executablePath moduleId data data' errData : string) (log : Log)
    (members : list (string * json)) :
  document w data = Ok (JObject members) →
  document w data'
  = Ok (JObject (filter (fun kv : string * json => kv.1 = "dependencies") members)) →
  collect w executablePath moduleId data' errData log
  = collect w executablePath moduleId data errData log.
Proof.
  intros Hdoc Hdoc'. unfold collect, bind.
  destruct (when _ _ log) as [[[]|e] log1]; [|done].
  destruct (GetNpmVersion w executablePath log1) as [[npmVersion|e] log2]; [|done].
  rewrite Hdoc, Hdoc'. cbn [ObjectEach].
  rewrite each_member_filter; [done|].
  intros key value st Hkey. by rewrite decide_False.
Qed.

(** ** Merges of different ids *)

(** X25: merges of records with different ids commute: the order in which
    two such occurrences are met does not show in the map. *)
Theorem appendDependency_commutes
    (m : gmap string dependencyInfo) (dep1 dep2 : npmLsDependency)
    (path1 path2 : list string) :
  id dep1 ≠ id dep2 →
  appendDependency (appendDependency m dep1 path1) dep2 path2
  = appendDependency (appendDependency m dep2 path2) dep1 path1.
Proof.
  intros Hne. rewrite !appendDependency_merged.
  rewrite (lookup_insert_ne _ (id dep1) (id dep2)) by done.
  rewrite (lookup_insert_ne _ (id dep2) (id dep1)) by done.
  by apply insert_insert_ne.
Qed.

(** * Instances of the further properties *)

Lemma id_injective_without_colon_witness :
  strings.Contains "left-pad" ":"%char = false
  ∧ ∀ version integrity dev,
      id (mkNpmLsDependency "left-pad" version integrity false dev false false None None)
      = "left-pad:1.3.0" →
      version = "1.3.0".
Proof.
  split; [reflexivity|]. intros version integrity dev Hid.
  apply (id_injective_without_colon
           (mkNpmLsDependency "left-pad" version integrity false dev false false None None)
           (mkNpmLsDependency "left-pad" "1.3.0" "" false false false false None None));
    [reflexivity|reflexivity|exact Hid].
Defined.

Lemma FullName_restores_name_witness :
  FullName (splitScopeFromName (mkPackageInfo "@org/pkgA" "1.2.3" "")) = "@org/pkgA"
  ∧ FullName (splitScopeFromName (mkPackageInfo "pkgA" "1.2.3" "")) = "pkgA".
Proof.
  split.
  - apply (FullName_restores_name (mkPackageInfo "@org/pkgA" "1.2.3" ""));
      [reflexivity|cbn; lia].
  - apply (FullName_restores_name (mkPackageInfo "pkgA" "1.2.3" ""));
      [reflexivity|cbn; lia].
Defined.

Lemma scoped_package_identity_witness :
  BuildInfoModuleId (splitScopeFromName (mkPackageInfo "@org/pkgA" "1.2.3" ""))
  = "org:pkgA:1.2.3"
  ∧ GetDeployPath (splitScopeFromName (mkPackageInfo "@org/pkgA" "1.2.3" ""))
    = "@org/pkgA/-/pkgA-1.2.3.tgz".
Proof.
  destruct (scoped_package_identity (mkPackageInfo "@org/pkgA" "1.2.3" "") "org" "pkgA"
              eq_refl eq_refl eq_refl) as (_ & Hid & Hpath).
  split; [exact Hid|exact Hpath].
Defined.


Lemma walk_keeps_entries_well_formed_witness :
  map_inv ["pkgA"] (dependencies (mkWalk ∅ []))
  ∧ map_inv ["pkgA"]
      (dependencies
         (parseDependencies npmLsDependencyParser Sample.tree ["pkgA"] (mkWalk ∅ [])).1).
Proof.
  assert (map_inv ["pkgA"] (dependencies (mkWalk ∅ []))) as Hempty.
  { intros k d Hk. cbn in Hk. rewrite lookup_empty in Hk. discriminate. }
  split; [exact Hempty|].
  exact (walk_keeps_entries_well_formed npmLsDependencyParser Sample.tree ["pkgA"]
           (mkWalk ∅ []) Hempty).
Defined.

Lemma CalculateDependenciesMap_entries_well_formed_witness :
  ∃ m err log',
    CalculateDependenciesMap Sample2.world "npm" "/proj" "pkgA:1" [] [] = (Ok (m, err), log')
    ∧ ∀ d, m !! "shared:1.0.0" = Some d →
        Version (lsDependency d) ≠ "" ∧
        Forall (fun path => last path = Some "pkgA:1") (RequestedBy (dependency d)).
Proof.
  destruct (CalculateDependenciesMap Sample2.world "npm" "/proj" "pkgA:1" [] [])
    as [[[m err]|e] log'] eqn:Hmap.
  - exists m, err, log'. split; [reflexivity|]. intros d Hd.
    destruct (CalculateDependenciesMap_entries_well_formed _ _ _ _ _ _ _ _ _ Hmap _ _ Hd)
      as (_ & _ & Hver & _ & _ & Hpaths & _).
    split; [exact Hver|exact Hpaths].
  - exfalso. vm_compute in Hmap. discriminate Hmap.
Defined.

Lemma assembler_accounts_for_every_entry_witness :
  ids_are_keys Sample.assorted
  ∧ range_order Sample2.world Sample.assorted ≡ₚ (map_to_list Sample.assorted).*2
  ∧ length (missingBundledDeps (partition_map Sample2.world true "/cache" Sample.assorted []))
    + length (missingPeerDeps (partition_map Sample2.world true "/cache" Sample.assorted []))
    + length (missingOptionalDeps (partition_map Sample2.world true "/cache" Sample.assorted []))
    + length (otherMissingDeps (partition_map Sample2.world true "/cache" Sample.assorted []))
    + length (dependenciesList (partition_map Sample2.world true "/cache" Sample.assorted []))
    = size Sample.assorted.
Proof.
  assert (ids_are_keys Sample.assorted) as Hids.
  { intros k d. unfold Sample.assorted. rewrite appendAll_lookup, lookup_empty.
    by apply entry_after_id. }
  assert (range_order Sample2.world Sample.assorted ≡ₚ (map_to_list Sample.assorted).*2)
    as Hperm by reflexivity.
  split_and!; [exact Hids|exact Hperm|].
  exact (proj2 (proj2 (assembler_accounts_for_every_entry Sample2.world true "/cache"
                         Sample.assorted [] Hids Hperm))).
Defined.


Lemma GetNpmConfigCache_returns_an_existing_cache_witness :
  GetNpmConfigCache Sample2.world "/proj" "npm" [] []
  = (Ok "/home/u/.npm/_cacache",
     [mkLog DEBUG "Running npm config command.";
      mkLog DEBUG ("npm config standard output is:" +:+ nl +:+ "/home/u/.npm" +:+ nl)])
  ∧ IsDirExists Sample2.world "/home/u/.npm/_cacache" true = (true, None).
Proof.
  assert (GetNpmConfigCache Sample2.world "/proj" "npm" [] []
          = (Ok "/home/u/.npm/_cacache",
             [mkLog DEBUG "Running npm config command.";
              mkLog DEBUG ("npm config standard output is:" +:+ nl +:+ "/home/u/.npm" +:+ nl)]))
    as Hcache by reflexivity.
  split; [exact Hcache|].
  destruct (GetNpmConfigCache_returns_an_existing_cache _ _ _ _ _ _ _ Hcache)
    as (data & errData & _ & _ & Hdir).
  exact Hdir.
Defined.

Lemma CalculateNpmDependenciesList_gives_up_witness :
  CalculateDependenciesMap (Sample.world true false "8.1.0") "npm" "/proj" "pkgA:1" [] []
  = (Err (node_modules_not_found "/proj"), [mkLog DEBUG "Running npm ls command."])
  ∧ CalculateNpmDependenciesList (Sample.world true false "8.1.0") "npm" "/proj" "pkgA:1" []
      true []
    = (Err (node_modules_not_found "/proj"), [mkLog DEBUG "Running npm ls command."]).
Proof.
  assert (CalculateDependenciesMap (Sample.world true false "8.1.0") "npm" "/proj" "pkgA:1"
            [] []
          = (Err (node_modules_not_found "/proj"), [mkLog DEBUG "Running npm ls command."]))
    as Hmap by reflexivity.
  split; [exact Hmap|].
  apply CalculateNpmDependenciesList_gives_up. left. exact Hmap.
Defined.

Lemma CalculateNpmDependenciesList_result_witness :
  ∃ m log1,
    CalculateDependenciesMap Sample2.world "npm" "/proj" "pkgA:1" [] [] = (Ok (m, None), log1)
    ∧ (CalculateNpmDependenciesList Sample2.world "npm" "/proj" "pkgA:1" [] false []).1
      = Ok (dependency <$> filter (fun d => left_out d = false) (range_order Sample2.world m)).
Proof.
  destruct (CalculateDependenciesMap Sample2.world "npm" "/proj" "pkgA:1" [] [])
    as [[[m [e|]]|e] log1] eqn:Hmap.
  - exfalso. vm_compute in Hmap. discriminate Hmap.
  - exists m, log1. split; [reflexivity|].
    exact (proj1 (CalculateNpmDependenciesList_result _ _ _ _ _ _ _ _ Hmap)).
  - exfalso. vm_compute in Hmap. discriminate Hmap.
Defined.

Lemma legacy_node_without_version_witness :
  visit legacyNpmLsDependencyParser ["pkgA"] "peer" Sample2.missing_peer (mkWalk ∅ [])
  = (mkWalk ∅ [mkLog DEBUG "peer is missing, this may be the result of an peer dependency."],
     None).
Proof.
  apply (proj2 (legacy_node_without_version ["pkgA"] "peer" Sample2.missing_peer (mkWalk ∅ [])
                  (mkNpmLsDependency "peer" "" "" false false false true None None)
                  ltac:(discriminate) eq_refl eq_refl)).
Defined.

Lemma collect_reads_dependencies_only_witness :
  document Sample2.world "listing"
  = Ok (JObject [("name", JString "pkgA"); ("dependencies", Sample.tree)])
  ∧ collect Sample2.world "npm" "pkgA:1" "dependencies only" "" []
    = collect Sample2.world "npm" "pkgA:1" "listing" "" [].
Proof.
  split; [reflexivity|].
  exact (collect_reads_dependencies_only Sample2.world "npm" "pkgA:1" "listing"
           "dependencies only" "" []
           [("name", JString "pkgA"); ("dependencies", Sample.tree)] eq_refl eq_refl).
Defined.

Lemma appendDependency_commutes_witness :
  id Sample.first_occurrence ≠ id (mkNpmLsDependency "left" "1.0.0" "" false false false false None None)
  ∧ appendDependency (appendDependency ∅ Sample.first_occurrence ["pkgA"])
      (mkNpmLsDependency "left" "1.0.0" "" false false false false None None) ["pkgA"]
    = appendDependency
        (appendDependency ∅
           (mkNpmLsDependency "left" "1.0.0" "" false false false false None None) ["pkgA"])
        Sample.first_occurrence ["pkgA"].
Proof.
  assert (id Sample.first_occurrence
          ≠ id (mkNpmLsDependency "left" "1.0.0" "" false false false false None None))
    as Hne by discriminate.
  split; [exact Hne|]. exact (appendDependency_commutes ∅ _ _ _ _ Hne).
Defined.
